(** * rag-service: a shallow embedding of the upload and chat paths

    The development follows the Python sources [src/utils.py] and
    [src/app.py].  Python [str] values are lists of Unicode code points,
    [bytes] values are lists of integers, a [dict] is an insertion-ordered
    association list, and the calls to the external collaborators (text
    extractors, vector store, chat model, websocket) are recorded in a trace
    threaded through a small exception-and-trace monad. *)

From Stdlib Require Import ZArith List String Ascii Lia Bool DecimalString.
From stdpp Require Import base list gmap.
Import ListNotations.

Local Open Scope Z_scope.

(** ** Python values *)

(** A code point; a Python [str] is a sequence of them. *)
Definition char := Z.
Definition str := list char.

(** An ASCII literal as a Python [str]. *)
Definition lit (s : string) : str :=
  map (fun a => Z.of_N (N_of_ascii a)) (list_ascii_of_string s).

(** The exceptions the modelled code raises or lets through. *)
Inductive Exn : Type :=
  | HTTPException (status_code : Z) (detail : str)
  | UnicodeDecodeError
  | ValueError
  | BackendError (code : Z)
  | WebSocketDisconnect.

Definition result (A : Type) : Type := (Exn + A)%type.

(** [len(range(start, stop, step))], as CPython computes it. *)
Definition range_len (start stop step : Z) : Z :=
  if 0 <? step then
    if start <? stop then (stop - start - 1) / step + 1 else 0
  else if step <? 0 then
    if stop <? start then (start - stop - 1) / (- step) + 1 else 0
  else 0.

(** [range(start, stop, step)]; a zero step raises [ValueError]. *)
Definition py_range (start stop step : Z) : result (list Z) :=
  if step =? 0 then inl ValueError
  else inr (map (fun k => start + Z.of_nat k * step)
                (seq 0 (Z.to_nat (range_len start stop step)))).

(** Clamping of one slice bound against the length. *)
Definition slice_index (len i : Z) : Z :=
  if i <? 0 then Z.max (i + len) 0 else Z.min i len.

(** [s[i:j]] *)
Definition py_slice {A : Type} (s : list A) (i j : Z) : list A :=
  let len := Z.of_nat (length s) in
  let lo := slice_index len i in
  let hi := slice_index len j in
  firstn (Z.to_nat (hi - lo)) (skipn (Z.to_nat lo) s).

(** ** [utils.chunk_text] *)

Module Chunker.

(** The default of the [chunk_size] argument. *)
Definition default_chunk_size : Z := 3500.

(** [[text[i:i + chunk_size] for i in range(0, len(text), chunk_size)]] *)
Definition chunk_text (text : str) (chunk_size : Z) : result (list str) :=
  match py_range 0 (Z.of_nat (length text)) chunk_size with
  | inl e => inl e
  | inr starts => inr (map (fun i => py_slice text i (i + chunk_size)) starts)
  end.

(** The number of chunks, [len(range(0, n, chunk_size))]. *)
Definition chunk_count (n : nat) (chunk_size : Z) : nat :=
  Z.to_nat (range_len 0 (Z.of_nat n) chunk_size).

(** The windows of width [c] at the offsets [0], [c], [2c], ... *)
Definition windows (c n : nat) (text : str) : list str :=
  map (fun k => firstn c (skipn (k * c) text)) (seq 0 n).

(** The sentence terminators [.], [?] and [!]. *)
Definition is_terminator (c : char) : bool :=
  (c =? 46) || (c =? 63) || (c =? 33).

(** The whitespace that may follow a terminator in plain ASCII text. *)
Definition is_blank (c : char) : bool :=
  (c =? 32) || ((9 <=? c) && (c <=? 13)).

(** A sentence ends at position [e]: a terminator followed by whitespace. *)
Definition sentence_end_at (text : str) (e : nat) : bool :=
  match text !! e, text !! S e with
  | Some c, Some d => is_terminator c && is_blank d
  | _, _ => false
  end.

(** Some sentence end lies in the last tenth of the window that starts at
    [start] and is [size] long. *)
Definition sentence_end_in_tail (text : str) (start size : nat) : bool :=
  existsb (fun e => sentence_end_at text e)
          (seq (start + size - size / 10) (size / 10)).

(** A cut between positions [p - 1] and [p] falls inside a sentence when
    neither neighbour is a terminator or whitespace. *)
Definition cut_inside_sentence (text : str) (p : nat) : bool :=
  match text !! (p - 1)%nat, text !! p with
  | Some c, Some d =>
      negb (is_terminator c || is_blank c) && negb (is_terminator d || is_blank d)
  | _, _ => false
  end.

End Chunker.

(** ** [utils.preprocess_text] *)

Module Preprocess.

(** Unicode whitespace as CPython classifies it ([str.isspace], the regular
    expression class [\s] and the characters [str.strip] removes). *)
Definition is_space (c : char) : bool :=
  ((9 <=? c) && (c <=? 13)) || ((28 <=? c) && (c <=? 32))
  || (c =? 133) || (c =? 160) || (c =? 5760)
  || ((8192 <=? c) && (c <=? 8202))
  || (c =? 8232) || (c =? 8233) || (c =? 8239) || (c =? 8287) || (c =? 12288).

(** [re.sub(r'\s+', ' ', text)]: every maximal run of whitespace becomes one
    space.  [in_run] tells that the previous character was whitespace. *)
Fixpoint sub_ws_from (in_run : bool) (text : str) : str :=
  match text with
  | [] => []
  | c :: rest =>
      if is_space c then
        if in_run then sub_ws_from true rest else 32 :: sub_ws_from true rest
      else c :: sub_ws_from false rest
  end.

Definition sub_ws (text : str) : str := sub_ws_from false text.

(** [str.lstrip], [str.rstrip] and [str.strip] without argument. *)
Fixpoint lstrip (text : str) : str :=
  match text with
  | [] => []
  | c :: rest => if is_space c then lstrip rest else text
  end.

Definition rstrip (text : str) : str := rev (lstrip (rev text)).

Definition strip (text : str) : str := rstrip (lstrip text).

(** Whitespace is normal when every whitespace character is a plain space
    and no two of them are adjacent; [prev] tells that the previous
    character was whitespace. *)
Fixpoint ws_normal_from (prev : bool) (text : str) : bool :=
  match text with
  | [] => true
  | c :: rest =>
      if is_space c then (c =? 32) && negb prev && ws_normal_from true rest
      else ws_normal_from false rest
  end.

(** The text does not start with whitespace. *)
Definition starts_tight (text : str) : Prop :=
  match text with
  | [] => True
  | c :: _ => is_space c = false
  end.

Section WithUnicodeTable.

(** The interpreter's table behind [str.isalnum]; the class [\w] of a
    [str] pattern is that table plus the underscore. *)
Variable isalnum : char -> bool.

Definition is_word (c : char) : bool := isalnum c || (c =? 95).

(** [re.sub(r'[^\w\s]', '', text)] *)
Definition remove_punct (text : str) : str :=
  List.filter (fun c => is_word c || is_space c) text.

Definition preprocess_text (text : str) : str :=
  let text := sub_ws text in
  let text := strip text in
  let text := remove_punct text in
  text.

(** The text holds nothing the punctuation pass would delete. *)
Definition no_punct (text : str) : Prop :=
  forall c, In c text -> is_word c || is_space c = true.

End WithUnicodeTable.

(** The table restricted to ASCII: digits and the two letter ranges. *)
Definition ascii_isalnum (c : char) : bool :=
  ((48 <=? c) && (c <=? 57)) || ((65 <=? c) && (c <=? 90))
  || ((97 <=? c) && (c <=? 122)).

End Preprocess.

(** ** [bytes.decode("utf-8")] and [utils.extract_txt_text] *)

Module Utf8.

Definition bytes := list Z.

Definition between (lo hi b : Z) : bool := (lo <=? b) && (b <=? hi).

(** A continuation byte [10xxxxxx]. *)
Definition is_cont (b : Z) : bool := between 128 191 b.

(** The strict decoder: shortest forms only, no surrogates, nothing above
    U+10FFFF; [None] stands for [UnicodeDecodeError]. *)
Fixpoint decode (bs : bytes) : option str :=
  match bs with
  | [] => Some []
  | b0 :: r0 =>
      if between 0 127 b0 then
        option_map (cons b0) (decode r0)
      else if between 194 223 b0 then
        match r0 with
        | b1 :: r1 =>
            if is_cont b1
            then option_map (cons ((b0 - 192) * 64 + (b1 - 128))) (decode r1)
            else None
        | _ => None
        end
      else if between 224 239 b0 then
        match r0 with
        | b1 :: b2 :: r2 =>
            if between (if b0 =? 224 then 160 else 128)
                       (if b0 =? 237 then 159 else 191) b1
               && is_cont b2
            then option_map
                   (cons ((b0 - 224) * 4096 + (b1 - 128) * 64 + (b2 - 128)))
                   (decode r2)
            else None
        | _ => None
        end
      else if between 240 244 b0 then
        match r0 with
        | b1 :: b2 :: b3 :: r3 =>
            if between (if b0 =? 240 then 144 else 128)
                       (if b0 =? 244 then 143 else 191) b1
               && is_cont b2 && is_cont b3
            then option_map
                   (cons ((b0 - 240) * 262144 + (b1 - 128) * 4096
                          + (b2 - 128) * 64 + (b3 - 128)))
                   (decode r3)
            else None
        | _ => None
        end
      else None
  end.

(** [txt_file.decode("utf-8")] *)
Definition extract_txt_text (txt_file : bytes) : result str :=
  match decode txt_file with
  | Some text => inr text
  | None => inl UnicodeDecodeError
  end.

(** The standard's side of the comparison: a Unicode scalar value and its
    UTF-8 encoded form. *)
Definition is_scalar (c : char) : Prop :=
  0 <= c < 55296 \/ 57344 <= c <= 1114111.

Definition encode_char (c : char) : bytes :=
  if c <? 128 then [c]
  else if c <? 2048 then [192 + c / 64; 128 + c mod 64]
  else if c <? 65536 then
    [224 + c / 4096; 128 + (c / 64) mod 64; 128 + c mod 64]
  else
    [240 + c / 262144; 128 + (c / 4096) mod 64; 128 + (c / 64) mod 64;
     128 + c mod 64].

Definition encode (text : str) : bytes := flat_map encode_char text.

(** A byte string is valid UTF-8 when it encodes some sequence of scalar
    values. *)
Definition valid_utf8 (bs : bytes) : Prop :=
  exists text, Forall is_scalar text /\ encode text = bs.

End Utf8.

(** ** External collaborators and the effect monad *)

(** [langchain_core.documents.Document] as the code builds and reads it. *)
Record Document : Type := mkDocument {
  page_content : str;
  metadata_source : str
}.

(** The calls the handlers make, in the order they make them. *)
Inductive Event : Type :=
  | Call_file_read
  | Call_extract_pdf_text (pdf_file : Utf8.bytes)
  | Call_extract_docx_text (docx_file : Utf8.bytes)
  | Call_extract_txt_text (txt_file : Utf8.bytes)
  | Call_preprocess_text (text : str)
  | Call_chunk_text (text : str)
  | Call_uuid4
  | Call_add_documents (documents : list Document) (ids : list str)
  | Call_accept
  | Call_receive_text (message : str)
  | Call_similarity_search (query : str) (k : Z)
  | Call_chat_client (prompt : str)
  | Call_send_text (message : str).

(** What lies outside the repository: the PDF and DOCX libraries, the
    identifier generator, the vector store, the chat model, the socket and
    the interpreter's character table. *)
Record World : Type := mkWorld {
  fitz_pages : Utf8.bytes -> result (list str);
  docx_paragraphs : Utf8.bytes -> result (list str);
  uuid4 : nat -> str;
  add_documents : list Document -> list str -> result (list str);
  similarity_search : str -> Z -> result (list Document);
  chat_client : str -> result str;
  send_text : str -> result unit;
  isalnum : char -> bool
}.

(** A computation that may raise and that extends the trace of calls. *)
Definition M (A : Type) : Type := list Event -> result A * list Event.

Definition ret {A : Type} (a : A) : M A := fun t => (inr a, t).

Definition raise {A : Type} (e : Exn) : M A := fun t => (inl e, t).

Definition bind {A B : Type} (m : M A) (k : A -> M B) : M B :=
  fun t =>
    match m t with
    | (inl e, t') => (inl e, t')
    | (inr a, t') => k a t'
    end.

(** One recorded call with its outcome. *)
Definition call {A : Type} (ev : Event) (r : result A) : M A :=
  fun t => (r, t ++ [ev]).

Notation "'do' x <- m ; k" := (bind m (fun x => k))
  (at level 10, x name, m at level 100, k at level 200).
Notation "'do' ' p <- m ; k" := (bind m (fun x => let 'p := x in k))
  (at level 10, p pattern, m at level 100, k at level 200).

(** [s.endswith(suffix)] *)
Definition endswith (s suffix : str) : bool :=
  bool_decide (skipn (length s - length suffix) s = suffix)
  && (length suffix <=? length s)%nat.

(** ** The upload path, [app.upload_file] *)

Module Upload.

(** [utils.extract_pdf_text]: the pages' texts joined; any failure of the
    PDF library is turned into [ValueError]. *)
Definition extract_pdf_text (w : World) (pdf_file : Utf8.bytes) : M str :=
  call (Call_extract_pdf_text pdf_file)
       (match fitz_pages w pdf_file with
        | inr pages => inr (concat pages)
        | inl _ => inl ValueError
        end).

(** [utils.extract_docx_text]: every paragraph followed by a newline. *)
Definition extract_docx_text (w : World) (docx_file : Utf8.bytes) : M str :=
  call (Call_extract_docx_text docx_file)
       (match docx_paragraphs w docx_file with
        | inr paras => inr (concat (map (fun p => p ++ [10]) paras))
        | inl e => inl e
        end).

Definition extract_txt_text (txt_file : Utf8.bytes) : M str :=
  call (Call_extract_txt_text txt_file) (Utf8.extract_txt_text txt_file).

Record UploadResponse : Type := mkUploadResponse {
  message : str;
  stored_chunks_ids : list str
}.

(** [str(uuid4())]: the next identifier of the generator, numbered by the
    draws made so far. *)
Definition fresh_uuid (w : World) : M str :=
  fun t =>
    let drawn := List.filter
      (fun ev => match ev with Call_uuid4 => true | _ => false end) t in
    call Call_uuid4 (inr (uuid4 w (length drawn))) t.

(** The loop that wraps every chunk in a [Document] and draws its id. *)
Fixpoint make_documents (w : World) (filename : str) (text_chunks : list str)
    (documents : list Document) (document_ids : list str)
    : M (list Document * list str) :=
  match text_chunks with
  | [] => ret (documents, document_ids)
  | chunk :: rest =>
      do id <- fresh_uuid w;
      make_documents w filename rest
        (documents ++ [mkDocument chunk filename]) (document_ids ++ [id])
  end.

(** The [if]/[elif] chain on the file name's suffix. *)
Definition extract_text (w : World) (filename : str) (file_content : Utf8.bytes)
    : M str :=
  if endswith filename (lit ".pdf") then extract_pdf_text w file_content
  else if endswith filename (lit ".docx") then extract_docx_text w file_content
  else if endswith filename (lit ".txt") then extract_txt_text file_content
  else raise (HTTPException 400 (lit "Unsupported file type")).

(** The rest of the handler: preprocess, chunk, wrap, store, respond. *)
Definition store_text (w : World) (filename : str) (extracted_text : str)
    : M UploadResponse :=
  do preprocessed_text <-
    call (Call_preprocess_text extracted_text)
         (inr (Preprocess.preprocess_text (isalnum w) extracted_text));
  do text_chunks <-
    call (Call_chunk_text preprocessed_text)
         (Chunker.chunk_text preprocessed_text Chunker.default_chunk_size);
  do '(documents, document_ids) <- make_documents w filename text_chunks [] [];
  do response <-
    call (Call_add_documents documents document_ids)
         (add_documents w documents document_ids);
  ret (mkUploadResponse
         (lit "File uploaded, content extracted, and stored in Pinecone successfully!")
         response).

Definition upload_file (w : World) (filename : str) (file_content : Utf8.bytes)
    : M UploadResponse :=
  do _ <- call Call_file_read (inr tt);
  do extracted_text <- extract_text w filename file_content;
  store_text w filename extracted_text.

(** The events that extract, chunk or store. *)
Definition is_processing (ev : Event) : bool :=
  match ev with
  | Call_extract_pdf_text _ | Call_extract_docx_text _
  | Call_extract_txt_text _ | Call_preprocess_text _ | Call_chunk_text _
  | Call_uuid4 | Call_add_documents _ _ => true
  | _ => false
  end.

End Upload.

(** ** The chat path, [utils.llm_chat_chain] and [app.chat] *)

Module Chat.

(** [history_data: Dict[str, str]]: a Python [dict] keeps its keys in the
    order of their first insertion. *)
Definition dict : Type := list (str * str).

Definition keys (d : dict) : list str := map fst d.

Fixpoint dict_get (d : dict) (key : str) : option str :=
  match d with
  | [] => None
  | (k, v) :: rest => if bool_decide (k = key) then Some v else dict_get rest key
  end.

(** [d[key] = value]: an existing key keeps its place and takes the new
    value, a new key goes last. *)
Fixpoint dict_set (d : dict) (key value : str) : dict :=
  match d with
  | [] => [(key, value)]
  | (k, v) :: rest =>
      if bool_decide (k = key) then (k, value) :: rest
      else (k, v) :: dict_set rest key value
  end.

(** [str(n)] for the counters of [enumerate]. *)
Definition str_of_nat (n : nat) : str :=
  lit (NilZero.string_of_uint (Nat.to_uint n)).

(** [enumerate(xs, 1)] *)
Definition enumerate1 {A : Type} (xs : list A) : list (nat * A) :=
  combine (seq 1 (length xs)) xs.

(** The loop building [context] from the search results. *)
Definition build_context (results : list Document) : str :=
  concat (map (fun '(count, res) =>
                 lit "Context " ++ str_of_nat count ++ lit ": "
                 ++ page_content res ++ [10; 10])
              (enumerate1 results)).

(** The loop building [history] from [history_data.items()]. *)
Definition build_history (history_data : dict) : str :=
  concat (map (fun '(count, (question, response)) =>
                 lit "(" ++ str_of_nat count ++ lit ")" ++ [10]
                 ++ lit "Question: " ++ question ++ [10]
                 ++ lit "Response: " ++ response ++ [10; 10])
              (enumerate1 history_data)).

(** The template of [llm_chat_chain] with its three fields filled in. *)
Definition format_prompt (context history question : str) : str :=
  lit "Answer the question based only on the following context and history:"
  ++ [10] ++ lit "    Context : " ++ context
  ++ [10] ++ lit "    History : " ++ history
  ++ [10; 10] ++ lit "    Question: " ++ question
  ++ [10] ++ lit "    ".

(** [utils.llm_chat_chain]: format the prompt, invoke the chat model, return
    its text. *)
Definition llm_chat_chain (w : World) (query context history : str) : M str :=
  let prompt := format_prompt context history query in
  do response <- call (Call_chat_client prompt) (chat_client w prompt);
  ret response.

(** The body of the loop from the similarity search to the model's
    response. *)
Definition answer (w : World) (message : str) (history_data : dict) : M str :=
  do results <-
    call (Call_similarity_search message 2) (similarity_search w message 2);
  let context := build_context results in
  let history := build_history history_data in
  llm_chat_chain w message context history.

(** One pass of the loop body on a received message: the outcome, the
    dictionary as the pass leaves it, and the trace. *)
Definition chat_turn (w : World) (message : str) (history_data : dict)
    (t : list Event) : (result unit * dict) * list Event :=
  match answer w message history_data t with
  | (inl e, t') => ((inl e, history_data), t')
  | (inr response, t') =>
      let history_data := dict_set history_data message response in
      let '(r, t'') := call (Call_send_text response) (send_text w response) t' in
      ((r, history_data), t'')
  end.

(** The [while True] loop over the frames the client sends; once they are
    used up [receive_text] raises [WebSocketDisconnect].  The loop only ends
    by an exception. *)
Fixpoint chat_loop (w : World) (frames : list str) (history_data : dict)
    (t : list Event) : (Exn * dict) * list Event :=
  match frames with
  | [] => ((WebSocketDisconnect, history_data), t)
  | message :: rest =>
      match chat_turn w message history_data (t ++ [Call_receive_text message]) with
      | ((inl e, history_data), t') => ((e, history_data), t')
      | ((inr _, history_data), t') => chat_loop w rest history_data t'
      end
  end.

(** What the [try] block makes of the exception that ends the loop:
    [WebSocketDisconnect] is handled, anything else escapes. *)
Definition escaped (e : Exn) : option Exn :=
  match e with
  | WebSocketDisconnect => None
  | _ => Some e
  end.

(** [app.chat] for one connection: accept, start from an empty history, run
    the loop. *)
Definition chat (w : World) (frames : list str) (t : list Event)
    : (option Exn * dict) * list Event :=
  let '((e, history_data), t') := chat_loop w frames [] (t ++ [Call_accept]) in
  ((escaped e, history_data), t').

(** The history after a run of the handler on the given frames. *)
Definition history_after (w : World) (frames : list str) : dict :=
  snd (fst (chat w frames [])).

(** The messages as the dictionary keeps them: first occurrences, in
    order. *)
Fixpoint first_occurrences (seen msgs : list str) : list str :=
  match msgs with
  | [] => []
  | m :: rest =>
      if bool_decide (m ∈ seen) then first_occurrences seen rest
      else m :: first_occurrences (seen ++ [m]) rest
  end.

(** Every collaborator of the chat path answers every call. *)
Definition always_answers (w : World) : Prop :=
  (forall query k, exists results, similarity_search w query k = inr results)
  /\ (forall prompt, exists response, chat_client w prompt = inr response)
  /\ (forall message, send_text w message = inr tt).

(** The number of calls to the chat model in a trace. *)
Definition chat_client_calls (t : list Event) : nat :=
  length (List.filter
            (fun ev => match ev with Call_chat_client _ => true | _ => false end) t).

End Chat.

(** ** Concurrent connections *)

Module Server.

(** Where the coroutine of one connection is suspended. *)
Inductive Pc : Type :=
  | AwaitAccept
  | AwaitReceive
  | AwaitSend (message response : str)
  | Closed (raised : option Exn).

(** One running [chat] coroutine: its suspension point, the frames the
    transport holds for it, its local [history_data] and its calls so far. *)
Record Conn : Type := mkConn {
  pc : Pc;
  inbox : list str;
  history_data : Chat.dict;
  trace : list Event
}.

(** The process: the coroutines by websocket and
    [websocket_manager.active_connections]. *)
Record State : Type := mkState {
  conns : gmap nat Conn;
  active_connections : list nat
}.

Definition init : State := mkState ∅ [].

(** [list.remove]: the first occurrence goes. *)
Fixpoint list_remove (x : nat) (l : list nat) : list nat :=
  match l with
  | [] => []
  | y :: rest => if bool_decide (y = x) then rest else y :: list_remove x rest
  end.

(** How the handler leaves the loop on an exception: the [except] clause
    catches [WebSocketDisconnect] and unregisters the socket. *)
Definition leave (ws : nat) (e : Exn) (active : list nat) : Pc * list nat :=
  (Closed (Chat.escaped e),
   match e with
   | WebSocketDisconnect => list_remove ws active
   | _ => active
   end).

Inductive Label : Type :=
  | Open (ws : nat)
  | Accepted (ws : nat)
  | Arrive (ws : nat) (message : str)
  | Received (ws : nat)
  | Sent (ws : nat)
  | Hangup (ws : nat).

(** The event loop resumes one coroutine at a time and runs it to its next
    [await]; the transport may deliver a frame at any moment. *)
Inductive step (w : World) : State -> Label -> State -> Prop :=
  | step_open s ws :
      conns s !! ws = None ->
      step w s (Open ws)
        (mkState (<[ws := mkConn AwaitAccept [] [] []]> (conns s))
                 (active_connections s))
  | step_accepted s ws c :
      conns s !! ws = Some c -> pc c = AwaitAccept ->
      step w s (Accepted ws)
        (mkState (<[ws := mkConn AwaitReceive (inbox c) []
                                 (trace c ++ [Call_accept])]> (conns s))
                 (active_connections s ++ [ws]))
  | step_arrive s ws c message :
      conns s !! ws = Some c ->
      step w s (Arrive ws message)
        (mkState (<[ws := mkConn (pc c) (inbox c ++ [message])
                                 (history_data c) (trace c)]> (conns s))
                 (active_connections s))
  | step_received_ok s ws c message rest response t' :
      conns s !! ws = Some c -> pc c = AwaitReceive ->
      inbox c = message :: rest ->
      Chat.answer w message (history_data c)
                  (trace c ++ [Call_receive_text message]) = (inr response, t') ->
      step w s (Received ws)
        (mkState (<[ws := mkConn (AwaitSend message response) rest
                                 (Chat.dict_set (history_data c) message response)
                                 t']> (conns s))
                 (active_connections s))
  | step_received_raise s ws c message rest e t' :
      conns s !! ws = Some c -> pc c = AwaitReceive ->
      inbox c = message :: rest ->
      Chat.answer w message (history_data c)
                  (trace c ++ [Call_receive_text message]) = (inl e, t') ->
      step w s (Received ws)
        (mkState (<[ws := mkConn (fst (leave ws e (active_connections s))) rest
                                 (history_data c) t']> (conns s))
                 (snd (leave ws e (active_connections s))))
  | step_sent_ok s ws c message response :
      conns s !! ws = Some c -> pc c = AwaitSend message response ->
      send_text w response = inr tt ->
      step w s (Sent ws)
        (mkState (<[ws := mkConn AwaitReceive (inbox c) (history_data c)
                                 (trace c ++ [Call_send_text response])]> (conns s))
                 (active_connections s))
  | step_sent_raise s ws c message response e :
      conns s !! ws = Some c -> pc c = AwaitSend message response ->
      send_text w response = inl e ->
      step w s (Sent ws)
        (mkState (<[ws := mkConn (fst (leave ws e (active_connections s)))
                                 (inbox c) (history_data c)
                                 (trace c ++ [Call_send_text response])]> (conns s))
                 (snd (leave ws e (active_connections s))))
  | step_hangup s ws c :
      conns s !! ws = Some c -> pc c = AwaitReceive -> inbox c = [] ->
      step w s (Hangup ws)
        (mkState (<[ws := mkConn (Closed None) [] (history_data c) (trace c)]>
                    (conns s))
                 (list_remove ws (active_connections s))).

(** Several steps in a row. *)
Inductive steps (w : World) : State -> State -> Prop :=
  | steps_refl s : steps w s s
  | steps_cons s l s' s'' : step w s l s' -> steps w s' s'' -> steps w s s''.

(** The states some interleaving reaches. *)
Inductive reachable (w : World) : State -> Prop :=
  | reachable_init : reachable w init
  | reachable_step s l s' : reachable w s -> step w s l s' -> reachable w s'.

(** The requests of a trace that were received and not yet answered. *)
Fixpoint in_flight_from (open : nat) (t : list Event) : nat :=
  match t with
  | [] => open
  | Call_receive_text _ :: rest => in_flight_from (S open) rest
  | Call_send_text _ :: rest => in_flight_from (Nat.pred open) rest
  | _ :: rest => in_flight_from open rest
  end.

Definition in_flight (t : list Event) : nat := in_flight_from 0 t.

(** Scanning a trace for overlap: [busy] tells that a request is open.  A
    frame received while one is open, or a backend call or a send while
    none is, is a violation ([None]); otherwise the scan ends with the flag
    as the trace leaves it. *)
Fixpoint busy_after (busy : bool) (t : list Event) : option bool :=
  match t with
  | [] => Some busy
  | Call_receive_text _ :: rest =>
      if busy then None else busy_after true rest
  | Call_send_text _ :: rest =>
      if busy then busy_after false rest else None
  | Call_similarity_search _ _ :: rest | Call_chat_client _ :: rest =>
      if busy then busy_after true rest else None
  | _ :: rest => busy_after busy rest
  end.

(** A trace is sequential when the scan finds no violation. *)
Definition sequential (t : list Event) : bool :=
  match busy_after false t with
  | Some _ => true
  | None => false
  end.

(** What ties the suspension point of a coroutine to its trace. *)
Definition conn_inv (c : Conn) : Prop :=
  match pc c with
  | AwaitAccept => trace c = []
  | AwaitReceive => busy_after false (trace c) = Some false
  | AwaitSend _ _ => busy_after false (trace c) = Some true
  | Closed _ => sequential (trace c) = true
  end.

End Server.

(** ** Sample collaborators for the worked examples *)

Module Samples.

(** Every collaborator answers. *)
Definition healthy : World := {|
  fitz_pages := fun _ => inr [lit "page one"];
  docx_paragraphs := fun _ => inr [lit "first paragraph"];
  uuid4 := fun n => lit "id-" ++ Chat.str_of_nat n;
  add_documents := fun _ ids => inr ids;
  similarity_search := fun _ _ => inr [mkDocument (lit "tea is a drink") (lit "tea.txt")];
  chat_client := fun prompt => inr (lit "answer " ++ Chat.str_of_nat (length prompt));
  send_text := fun _ => inr tt;
  isalnum := Preprocess.ascii_isalnum
|}.

(** The vector store is down: every similarity search raises. *)
Definition store_down : World := {|
  fitz_pages := fitz_pages healthy;
  docx_paragraphs := docx_paragraphs healthy;
  uuid4 := uuid4 healthy;
  add_documents := fun _ _ => inl (BackendError 503);
  similarity_search := fun _ _ => inl (BackendError 503);
  chat_client := chat_client healthy;
  send_text := send_text healthy;
  isalnum := isalnum healthy
|}.

(** One connection, accepted, whose first frame [hi] was answered and is
    being sent while a second frame waits in the queue. *)
Definition busy_conn : Server.Conn := {|
  Server.pc := Server.AwaitSend (lit "hi") (lit "answer 148");
  Server.inbox := [lit "and then"];
  Server.history_data := [(lit "hi", lit "answer 148")];
  Server.trace :=
    [Call_accept; Call_receive_text (lit "hi");
     Call_similarity_search (lit "hi") 2;
     Call_chat_client
       (Chat.format_prompt
          (Chat.build_context [mkDocument (lit "tea is a drink") (lit "tea.txt")])
          [] (lit "hi"))]
|}.

Definition busy : Server.State := {|
  Server.conns := {[ 1%nat := busy_conn ]};
  Server.active_connections := [1%nat]
|}.

End Samples.

(** ** [services.WebsocketManager] and further vocabulary *)

Module Manager.

(** [connect], after the socket accepted: [active_connections.append]. *)
Definition connect (ws : nat) (active_connections : list nat) : list nat :=
  active_connections ++ [ws].

(** [disconnect]: [active_connections.remove], which raises [ValueError]
    when the socket is not in the list. *)
Definition disconnect (ws : nat) (active_connections : list nat)
    : result (list nat) :=
  if bool_decide (ws ∈ active_connections)
  then inr (Server.list_remove ws active_connections)
  else inl ValueError.

(** [broadcast]: [send_text] on every connection in turn; the first
    exception ends the loop.  The result comes with the connections on
    which [send_text] was called. *)
Fixpoint broadcast (send : nat -> str -> result unit) (message : str)
    (active_connections : list nat) : result unit * list nat :=
  match active_connections with
  | [] => (inr tt, [])
  | connection :: rest =>
      match send connection message with
      | inl e => (inl e, [connection])
      | inr _ =>
          let '(r, called) := broadcast send message rest in
          (r, connection :: called)
      end
  end.

(** A coroutine at this point stands in [active_connections]: it was
    accepted and has not gone through the [except] clause. *)
Definition registered (pc : Server.Pc) : bool :=
  match pc with
  | Server.AwaitAccept => false
  | Server.AwaitReceive => true
  | Server.AwaitSend _ _ => true
  | Server.Closed None => false
  | Server.Closed (Some _) => true
  end.

End Manager.

(** The registry agrees with the coroutines: no socket stands twice in
    [active_connections], and a socket stands there exactly when its
    coroutine is at a registered point. *)
Definition registry_inv (s : Server.State) : Prop :=
  List.NoDup (Server.active_connections s)
  /\ forall ws,
       In ws (Server.active_connections s)
       <-> exists c, Server.conns s !! ws = Some c
                     /\ Manager.registered (Server.pc c) = true.

(** The identifiers drawn in a trace. *)
Definition uuid_draws (t : list Event) : nat :=
  length (List.filter
            (fun ev => match ev with Call_uuid4 => true | _ => false end) t).

(** The dictionary after the assignments [d[message] = response] for the
    pairs of [turns], in order. *)
Definition record_turns (d : Chat.dict) (turns : list (str * str)) : Chat.dict :=
  fold_left (fun d turn => Chat.dict_set d (fst turn) (snd turn)) turns d.

(** The responses sent in a trace. *)
Definition sent_texts (t : list Event) : list str :=
  flat_map (fun ev => match ev with Call_send_text m => [m] | _ => [] end) t.

(** The characters preprocessing leaves in place: word characters that are
    not whitespace. *)
Definition kept_char (isalnum : char -> bool) (c : char) : bool :=
  Preprocess.is_word isalnum c && negb (Preprocess.is_space c).

(** The chat model is down: every completion raises. *)
Definition model_down : World := {|
  fitz_pages := fitz_pages Samples.healthy;
  docx_paragraphs := docx_paragraphs Samples.healthy;
  uuid4 := uuid4 Samples.healthy;
  add_documents := add_documents Samples.healthy;
  similarity_search := similarity_search Samples.healthy;
  chat_client := fun _ => inl (BackendError 429);
  send_text := send_text Samples.healthy;
  isalnum := isalnum Samples.healthy
|}.

(** ** [services.PineconeService] and [app.startup_event] *)

Module Pinecone.

(** The calls of the start-up code, in the order it makes them. *)
Inductive Call : Type :=
  | List_indexes
  | Print (line : str)
  | Create_index (name : str) (dimension : Z) (metric cloud region : str)
  | Describe_index (name : str)
  | Sleep (seconds : Z)
  | Open_index (name : str).

(** The Pinecone service as the client sees it: the names it lists, the
    outcome of [create_index], and the readiness the [n]-th
    [describe_index] of the waiting loop reports. *)
Record Service : Type := mkService {
  list_indexes_names : result (list str);
  create_index : str -> Z -> str -> str -> str -> result unit;
  describe_ready : nat -> result bool
}.

(** What [pc.Index(name)] returns: a handle on the index of that name. *)
Definition IndexHandle : Type := str.

(** [while not pc.describe_index(name).status["ready"]: time.sleep(1)];
    [polled] counts the polls made so far, [fuel] bounds those to come and
    [None] means the bound was reached with the loop still running. *)
Fixpoint wait_ready (svc : Service) (name : str) (fuel polled : nat)
    (t : list Call) : option (result unit * list Call) :=
  match fuel with
  | O => None
  | S fuel =>
      match describe_ready svc polled with
      | inl e => Some (inl e, t ++ [Describe_index name])
      | inr true => Some (inr tt, t ++ [Describe_index name])
      | inr false =>
          wait_ready svc name fuel (S polled)
            (t ++ [Describe_index name; Sleep 1])
      end
  end.

(** [PineconeService.initialize_pinecone] *)
Definition initialize_pinecone (svc : Service) (index_name : str) (fuel : nat)
    : option (result IndexHandle * list Call) :=
  match list_indexes_names svc with
  | inl e => Some (inl e, [List_indexes])
  | inr names =>
      if bool_decide (index_name ∈ names) then
        Some (inr index_name,
              [List_indexes;
               Print (lit "Index " ++ index_name ++ lit " already exists.");
               Open_index index_name])
      else
        let t :=
          [List_indexes;
           Print (lit "Creating Pinecone index: " ++ index_name ++ lit "...");
           Create_index index_name 3072 (lit "cosine") (lit "aws")
                        (lit "us-east-1")] in
        match create_index svc index_name 3072 (lit "cosine") (lit "aws")
                           (lit "us-east-1") with
        | inl e => Some (inl e, t)
        | inr _ =>
            match wait_ready svc index_name fuel 0 t with
            | None => None
            | Some (inl e, t') => Some (inl e, t')
            | Some (inr _, t') =>
                Some (inr index_name,
                      t' ++ [Print (lit "Index " ++ index_name
                                    ++ lit " is ready.");
                             Open_index index_name])
            end
        end
  end.

(** [PineconeVectorStore(index=..., embedding=...)] *)
Record VectorStore : Type := mkVectorStore {
  store_index : option IndexHandle;
  store_embedding : str
}.

(** The two client slots of [config.Config]. *)
Record Config : Type := mkConfig {
  pinecone_client : option IndexHandle;
  pinecone_vector_store_client : option VectorStore
}.

Definition INDEX_NAME : str := lit "document-index".

Definition embedding_model : str := lit "text-embedding-3-large".

(** [PineconeService.pinecone_vector_store_client] *)
Definition make_vector_store (pinecone_client : option IndexHandle)
    : VectorStore :=
  mkVectorStore pinecone_client embedding_model.

(** [app.startup_event]: each slot is filled only when it is [None]. *)
Definition startup_event (svc : Service) (cfg : Config) (fuel : nat)
    : option (result Config * list Call) :=
  let first :=
    match pinecone_client cfg with
    | None =>
        match initialize_pinecone svc INDEX_NAME fuel with
        | None => None
        | Some (inl e, t) => Some (inl e, t)
        | Some (inr index, t) =>
            Some (inr (mkConfig (Some index) (pinecone_vector_store_client cfg)),
                  t)
        end
    | Some _ => Some (inr cfg, [])
    end in
  match first with
  | None => None
  | Some (inl e, t) => Some (inl e, t)
  | Some (inr cfg, t) =>
      match pinecone_vector_store_client cfg with
      | None =>
          Some (inr (mkConfig (pinecone_client cfg)
                       (Some (make_vector_store (pinecone_client cfg)))),
                t)
      | Some _ => Some (inr cfg, t)
      end
  end.

(** The seconds slept in a trace. *)
Definition slept (t : list Call) : Z :=
  fold_right (fun c acc => match c with Sleep s => s + acc | _ => acc end) 0 t.

(** A service whose index [document-index] is missing and becomes ready at
    the third poll. *)
Definition slow_service : Service := {|
  list_indexes_names := inr [lit "other-index"];
  create_index := fun _ _ _ _ _ => inr tt;
  describe_ready := fun n => inr (2 <=? n)%nat
|}.

(** A service that lists [document-index] already and would refuse to
    create it again. *)
Definition ready_service : Service := {|
  list_indexes_names := inr [lit "other-index"; lit "document-index"];
  create_index := fun _ _ _ _ _ => inl (BackendError 409);
  describe_ready := fun _ => inr true
|}.

(** A service whose new index never becomes ready. *)
Definition stuck_service : Service := {|
  list_indexes_names := inr [];
  create_index := fun _ _ _ _ _ => inr tt;
  describe_ready := fun _ => inr false
|}.

(** The configuration once both slots are filled. *)
Definition started : Config :=
  mkConfig (Some INDEX_NAME)
           (Some (mkVectorStore (Some INDEX_NAME) embedding_model)).

End Pinecone.

(** * Properties *)

(** ** Chunking *)

Lemma py_slice_nonneg {A : Type} (s : list A) (i j : Z) :
  0 <= i -> 0 <= j ->
  py_slice s i j = firstn (Z.to_nat (j - i)) (skipn (Z.to_nat i) s).
Proof.
  intros Hi Hj. unfold py_slice, slice_index.
  destruct (Z.ltb_spec i 0); [lia|]. destruct (Z.ltb_spec j 0); [lia|].
  set (len := Z.of_nat (length s)).
  destruct (Z.le_gt_cases i len) as [Hil|Hil].
  - rewrite (Z.min_l i len) by lia.
    destruct (Z.le_gt_cases j len) as [Hjl|Hjl].
    + now rewrite (Z.min_l j len) by lia.
    + rewrite (Z.min_r j len) by lia.
      rewrite !firstn_all2; [reflexivity| |]; rewrite length_skipn; lia.
  - rewrite (Z.min_r i len) by lia.
    rewrite !skipn_all2 by lia. now rewrite !firstn_nil.
Qed.

Lemma range_len_forward (len step : Z) :
  0 < step -> 0 <= len -> range_len 0 len step = (len + step - 1) / step.
Proof.
  intros Hs Hl. unfold range_len.
  destruct (Z.ltb_spec 0 step); [|lia].
  destruct (Z.ltb_spec 0 len).
  - replace (len + step - 1) with (len - 0 - 1 + 1 * step) by lia.
    now rewrite Z.div_add by lia.
  - replace len with 0 by lia. symmetry. apply Z.div_small. lia.
Qed.

Lemma range_len_covers (len step : Z) :
  0 < step -> 0 <= len ->
  len <= ((len + step - 1) / step) * step < len + step.
Proof.
  intros Hs Hl.
  pose proof (Z.div_mod (len + step - 1) step ltac:(lia)).
  pose proof (Z.mod_pos_bound (len + step - 1) step Hs). lia.
Qed.

Lemma concat_windows (c n : nat) (text : str) :
  (0 < c)%nat -> (length text <= n * c)%nat ->
  concat (Chunker.windows c n text) = text.
Proof.
  intros Hc. unfold Chunker.windows. revert text.
  induction n as [|n IH]; intros text Hlen.
  - destruct text; [reflexivity | simpl in Hlen; lia].
  - cbn [seq map concat]. rewrite <- seq_shift, map_map.
    rewrite Nat.mul_0_l, skipn_O.
    etransitivity; [|apply (firstn_skipn c text)]. f_equal.
    rewrite <- (IH (skipn c text)) by (rewrite length_skipn; lia).
    f_equal. apply map_ext. intros k.
    rewrite skipn_skipn. do 2 f_equal. lia.
Qed.

Lemma chunk_text_windows (text : str) (chunk_size : Z) :
  0 < chunk_size ->
  Chunker.chunk_text text chunk_size =
    inr (Chunker.windows (Z.to_nat chunk_size)
           (Chunker.chunk_count (length text) chunk_size) text).
Proof.
  intros Hc. unfold Chunker.chunk_text, py_range.
  destruct (Z.eqb_spec chunk_size 0); [lia|].
  f_equal. unfold Chunker.windows, Chunker.chunk_count.
  rewrite map_map. apply map_ext. intros k. rewrite py_slice_nonneg by lia.
  f_equal; [f_equal; lia | f_equal; lia].
Qed.

Lemma chunk_count_covers (text : str) (chunk_size : Z) :
  0 < chunk_size ->
  (length text <=
     Chunker.chunk_count (length text) chunk_size * Z.to_nat chunk_size)%nat.
Proof.
  intros Hc. unfold Chunker.chunk_count.
  rewrite range_len_forward by lia.
  pose proof (range_len_covers (Z.of_nat (length text)) chunk_size Hc ltac:(lia)).
  pose proof (Z.div_pos (Z.of_nat (length text) + chunk_size - 1) chunk_size
                ltac:(lia) Hc).
  nia.
Qed.

Lemma chunk_text_concat (text : str) (chunk_size : Z) (chunks : list str) :
  0 < chunk_size ->
  Chunker.chunk_text text chunk_size = inr chunks -> concat chunks = text.
Proof.
  intros Hc. rewrite chunk_text_windows by assumption. intros [= <-].
  apply concat_windows; [lia | now apply chunk_count_covers].
Qed.

(** Without any assumption on the size: a zero size raises both times, a
    negative one gives no chunk both times. *)
Lemma chunk_text_rechunk_any (text : str) (chunk_size : Z) :
  match Chunker.chunk_text text chunk_size with
  | inr chunks => Chunker.chunk_text (concat chunks) chunk_size = inr chunks
  | inl e => forall text', Chunker.chunk_text text' chunk_size = inl e
  end.
Proof.
  destruct (Z.lt_trichotomy chunk_size 0) as [Hn|[->|Hp]].
  - unfold Chunker.chunk_text, py_range, range_len.
    destruct (Z.eqb_spec chunk_size 0); [lia|].
    destruct (Z.ltb_spec 0 chunk_size); [lia|].
    destruct (Z.ltb_spec chunk_size 0); [|lia].
    destruct (Z.ltb_spec (Z.of_nat (length text)) 0); [lia|]. reflexivity.
  - intros text'. reflexivity.
  - destruct (Chunker.chunk_text text chunk_size) as [e|chunks] eqn:E.
    + rewrite chunk_text_windows in E by assumption. discriminate.
    + now rewrite (chunk_text_concat _ _ _ Hp E).
Qed.

(** C5: for every text and every positive chunk size, [chunk_text] returns
    a chunk sequence, that sequence concatenates back to the text, and
    chunking the concatenation again returns the very same sequence. *)
Theorem chunk_text_rechunk (text : str) (chunk_size : Z) :
  0 < chunk_size ->
  exists chunks,
    Chunker.chunk_text text chunk_size = inr chunks
    /\ concat chunks = text
    /\ Chunker.chunk_text (concat chunks) chunk_size = inr chunks.
Proof.
  intros Hc. eexists. split; [now apply chunk_text_windows|].
  assert (Hcat : concat (Chunker.windows (Z.to_nat chunk_size)
             (Chunker.chunk_count (length text) chunk_size) text) = text)
    by (apply concat_windows; [lia | now apply chunk_count_covers]).
  split; [exact Hcat|]. rewrite Hcat. now apply chunk_text_windows.
Qed.

Lemma chunk_text_rechunk_witness :
  0 < 3 /\
  exists chunks,
    Chunker.chunk_text (lit "abcdefg") 3 = inr chunks
    /\ concat chunks = lit "abcdefg"
    /\ Chunker.chunk_text (concat chunks) 3 = inr chunks.
Proof. split; [lia | apply (chunk_text_rechunk (lit "abcdefg") 3); lia]. Defined.

Lemma nth_error_map_seq {A : Type} (f : nat -> A) (a n k : nat) (x : A) :
  nth_error (map f (seq a n)) k = Some x -> (k < n)%nat /\ x = f (a + k)%nat.
Proof.
  revert a k. induction n as [|n IH]; intros a k; cbn [seq map].
  - destruct k; discriminate.
  - destruct k as [|k]; cbn [nth_error].
    + intros [= <-]. split; [lia | f_equal; lia].
    + intros H. apply IH in H as [Hk ->]. split; [lia | f_equal; lia].
Qed.

Lemma chunk_count_tight (text : str) (chunk_size : Z) :
  0 < chunk_size ->
  (Chunker.chunk_count (length text) chunk_size * Z.to_nat chunk_size
   < length text + Z.to_nat chunk_size)%nat.
Proof.
  intros Hc. unfold Chunker.chunk_count.
  rewrite range_len_forward by lia.
  pose proof (range_len_covers (Z.of_nat (length text)) chunk_size Hc ltac:(lia)).
  pose proof (Z.div_pos (Z.of_nat (length text) + chunk_size - 1) chunk_size
                ltac:(lia) Hc).
  nia.
Qed.

Lemma nth_error_map_seq_lt {A : Type} (f : nat -> A) (a n k : nat) :
  (k < n)%nat -> nth_error (map f (seq a n)) k = Some (f (a + k)%nat).
Proof.
  revert a k. induction n as [|n IH]; intros a k Hk; [lia|].
  cbn [seq map]. destruct k as [|k]; cbn [nth_error].
  - do 2 f_equal. lia.
  - rewrite IH by lia. do 2 f_equal. lia.
Qed.

(** C4, as the code has it: for every text and every positive chunk size
    there is a chunk for every multiple [k * chunk_size] that lies inside
    the text, and no other chunk: the [k]-th chunk is the window of
    [chunk_size] characters that starts at offset [k * chunk_size],
    whatever the text holds there, and every chunk but the last is exactly
    [chunk_size] long.  Sentence ends play no part in where a cut falls. *)
Theorem chunk_text_fixed_windows (text : str) (chunk_size : Z) :
  0 < chunk_size ->
  exists chunks,
    Chunker.chunk_text text chunk_size = inr chunks
    /\ (forall k : nat,
          (k * Z.to_nat chunk_size < length text)%nat ->
          nth_error chunks k
          = Some (firstn (Z.to_nat chunk_size)
                         (skipn (k * Z.to_nat chunk_size) text)))
    /\ forall (k : nat) (chunk : str),
         nth_error chunks k = Some chunk ->
         chunk = firstn (Z.to_nat chunk_size)
                        (skipn (k * Z.to_nat chunk_size) text)
         /\ (k * Z.to_nat chunk_size < length text)%nat
         /\ ((S k < length chunks)%nat -> Z.of_nat (length chunk) = chunk_size).
Proof.
  intros Hc. eexists. split; [now apply chunk_text_windows|].
  pose proof (chunk_count_tight text chunk_size Hc) as Ht.
  pose proof (chunk_count_covers text chunk_size Hc) as Hcov.
  unfold Chunker.windows. split.
  - intros k Hk. rewrite nth_error_map_seq_lt by nia. reflexivity.
  - intros k chunk Hk. rewrite length_map, length_seq.
    apply nth_error_map_seq in Hk as [Hlt ->]. cbn [Nat.add].
    split; [reflexivity|]. split; [nia|].
    intros Hlast. rewrite length_firstn, length_skipn. nia.
Qed.

Lemma chunk_text_fixed_windows_witness :
  0 < 30 /\
  exists chunks,
    Chunker.chunk_text (lit "We saw the quarterly report. Nobody agreed.") 30
      = inr chunks
    /\ (forall k : nat,
          (k * Z.to_nat 30
           < length (lit "We saw the quarterly report. Nobody agreed."))%nat ->
          nth_error chunks k
          = Some (firstn (Z.to_nat 30)
                    (skipn (k * Z.to_nat 30)
                       (lit "We saw the quarterly report. Nobody agreed."))))
    /\ forall (k : nat) (chunk : str),
         nth_error chunks k = Some chunk ->
         chunk = firstn (Z.to_nat 30)
                   (skipn (k * Z.to_nat 30)
                      (lit "We saw the quarterly report. Nobody agreed."))
         /\ (k * Z.to_nat 30
             < length (lit "We saw the quarterly report. Nobody agreed."))%nat
         /\ ((S k < length chunks)%nat -> Z.of_nat (length chunk) = 30).
Proof.
  split; [lia|].
  apply (chunk_text_fixed_windows
           (lit "We saw the quarterly report. Nobody agreed.") 30); lia.
Defined.

(** C4 fails as stated: with a window of 30 the sentence end at offsets 27
    and 28 lies in the last tenth of the first window, and the cut still
    falls at offset 30, between the [N] and the [o] of the next sentence. *)
Lemma chunk_text_cuts_inside_sentence :
  Chunker.chunk_text (lit "We saw the quarterly report. Nobody agreed.") 30
    = inr [lit "We saw the quarterly report. N"; lit "obody agreed."]
  /\ Chunker.sentence_end_in_tail
       (lit "We saw the quarterly report. Nobody agreed.") 0 30 = true
  /\ Chunker.cut_inside_sentence
       (lit "We saw the quarterly report. Nobody agreed.") 30 = true.
Proof. vm_compute. repeat split. Qed.

(** ** Preprocessing *)

Section PreprocessFacts.

Import Preprocess.

Variable isalnum : char -> bool.

Lemma sub_ws_from_normal (b : bool) (text : str) :
  ws_normal_from b (sub_ws_from b text) = true.
Proof.
  revert b. induction text as [|c rest IH]; intros b; [reflexivity|].
  cbn [sub_ws_from]. destruct (is_space c) eqn:Hc.
  - destruct b; [apply IH|]. cbn [ws_normal_from].
    change (is_space 32) with true. cbn. apply IH.
  - cbn [ws_normal_from]. rewrite Hc. apply IH.
Qed.

Lemma sub_ws_from_fixed (b : bool) (text : str) :
  ws_normal_from b text = true -> sub_ws_from b text = text.
Proof.
  revert b. induction text as [|c rest IH]; intros b; [reflexivity|].
  cbn [ws_normal_from sub_ws_from]. destruct (is_space c).
  - intros H. apply andb_prop in H as [H Hr]. apply andb_prop in H as [Hc Hb].
    apply Z.eqb_eq in Hc. subst c. destruct b; [discriminate|].
    f_equal. now apply IH.
  - intros H. f_equal. now apply IH.
Qed.

Lemma ws_normal_from_prefix (b : bool) (x y : str) :
  ws_normal_from b (x ++ y) = true -> ws_normal_from b x = true.
Proof.
  revert b. induction x as [|c x IH]; intros b; [reflexivity|].
  cbn [app ws_normal_from]. destruct (is_space c).
  - intros H. apply andb_prop in H as [H Hr]. rewrite H. cbn.
    now apply IH.
  - apply IH.
Qed.

Lemma lstrip_split (text : str) :
  exists ws, text = ws ++ lstrip text /\ Forall (fun c => is_space c = true) ws.
Proof.
  induction text as [|c rest [ws [E F]]].
  - exists []. split; [reflexivity | constructor].
  - cbn [lstrip]. destruct (is_space c) eqn:Hc.
    + exists (c :: ws). split; [cbn; now f_equal | now constructor].
    + exists []. split; [reflexivity | constructor].
Qed.

Lemma rstrip_split (text : str) :
  exists ws, text = rstrip text ++ ws.
Proof.
  destruct (lstrip_split (rev text)) as [ws [E _]].
  exists (rev ws). unfold rstrip.
  rewrite <- rev_app_distr, <- E. now rewrite rev_involutive.
Qed.

Lemma lstrip_normal (b b' : bool) (text : str) :
  ws_normal_from b text = true -> ws_normal_from b' (lstrip text) = true.
Proof.
  revert b. induction text as [|c rest IH]; intros b; [reflexivity|].
  cbn [lstrip ws_normal_from]. destruct (is_space c) eqn:Hc.
  - intros H. apply andb_prop in H as [_ Hr]. now apply (IH true).
  - intros H. cbn [ws_normal_from]. now rewrite Hc.
Qed.

Lemma rstrip_normal (b : bool) (text : str) :
  ws_normal_from b text = true -> ws_normal_from b (rstrip text) = true.
Proof.
  destruct (rstrip_split text) as [ws E]. rewrite E at 1.
  apply ws_normal_from_prefix.
Qed.

Lemma lstrip_tight (text : str) : starts_tight (lstrip text).
Proof.
  induction text as [|c rest IH]; [exact I|].
  cbn [lstrip]. destruct (is_space c) eqn:Hc; [exact IH | exact Hc].
Qed.

Lemma lstrip_fixed (text : str) : starts_tight text -> lstrip text = text.
Proof. destruct text as [|c rest]; [reflexivity|]. cbn. now intros ->. Qed.

Lemma starts_tight_prefix (x y : str) : starts_tight (x ++ y) -> starts_tight x.
Proof. destruct x; [intros; exact I | exact id]. Qed.

Lemma rstrip_tight (text : str) : starts_tight text -> starts_tight (rstrip text).
Proof.
  destruct (rstrip_split text) as [ws E]. rewrite E at 1.
  apply starts_tight_prefix.
Qed.

Lemma rstrip_rstrip (text : str) : rstrip (rstrip text) = rstrip text.
Proof.
  unfold rstrip. rewrite rev_involutive. f_equal.
  apply lstrip_fixed, lstrip_tight.
Qed.

Lemma strip_strip (text : str) : strip (strip text) = strip text.
Proof.
  unfold strip.
  rewrite (lstrip_fixed (rstrip (lstrip text)))
    by apply rstrip_tight, lstrip_tight.
  apply rstrip_rstrip.
Qed.

Lemma strip_normal (text : str) :
  ws_normal_from false text = true -> ws_normal_from false (strip text) = true.
Proof.
  intros H. unfold strip. apply rstrip_normal. now apply (lstrip_normal false).
Qed.

Lemma In_sub_ws_from (b : bool) (text : str) (c : char) :
  In c (sub_ws_from b text) -> c = 32 \/ In c text.
Proof.
  revert b. induction text as [|d rest IH]; intros b; [intros []|].
  cbn [sub_ws_from]. destruct (is_space d).
  - destruct b.
    + intros H. apply IH in H as [->|H]; [now left | right; now right].
    + intros [<-|H]; [now left|].
      apply IH in H as [->|H]; [now left | right; now right].
  - intros [<-|H]; [right; now left|].
    apply IH in H as [->|H]; [now left | right; now right].
Qed.

Lemma In_lstrip (text : str) (c : char) : In c (lstrip text) -> In c text.
Proof.
  destruct (lstrip_split text) as [ws [E _]]. rewrite E at 2.
  intros H. apply in_or_app. now right.
Qed.

Lemma In_strip (text : str) (c : char) : In c (strip text) -> In c text.
Proof.
  unfold strip. destruct (rstrip_split (lstrip text)) as [ws E].
  intros H. apply In_lstrip. rewrite E. apply in_or_app. now left.
Qed.

Lemma remove_punct_fixed (text : str) :
  no_punct isalnum text -> remove_punct isalnum text = text.
Proof.
  unfold no_punct, remove_punct. induction text as [|c rest IH]; intros H.
  - reflexivity.
  - cbn [List.filter]. rewrite (H c) by now left.
    f_equal. apply IH. intros d Hd. apply H. now right.
Qed.

Lemma remove_punct_no_punct (text : str) :
  no_punct isalnum (remove_punct isalnum text).
Proof. intros c Hc. now apply filter_In in Hc as [_ Hc]. Qed.

Lemma no_punct_normalised (text : str) :
  no_punct isalnum text -> no_punct isalnum (strip (sub_ws text)).
Proof.
  intros H c Hc. apply In_strip, In_sub_ws_from in Hc as [->|Hc].
  - apply orb_true_r.
  - now apply H.
Qed.

(** On a text without punctuation the function only normalises the
    whitespace. *)
Lemma preprocess_text_no_punct (text : str) :
  no_punct isalnum text ->
  preprocess_text isalnum text = strip (sub_ws text).
Proof.
  intros H. unfold preprocess_text.
  now apply remove_punct_fixed, no_punct_normalised.
Qed.

(** A text whose whitespace is normal and trimmed is left alone. *)
Lemma preprocess_text_fixed (text : str) :
  no_punct isalnum text ->
  preprocess_text isalnum (strip (sub_ws text)) = strip (sub_ws text).
Proof.
  intros H.
  assert (Hn : ws_normal_from false (strip (sub_ws text)) = true)
    by apply strip_normal, sub_ws_from_normal.
  rewrite preprocess_text_no_punct by now apply no_punct_normalised.
  unfold sub_ws at 1. rewrite (sub_ws_from_fixed _ _ Hn).
  apply strip_strip.
Qed.

End PreprocessFacts.

(** C9, as the code has it: on every input that holds no character for the
    punctuation pass to delete, preprocessing twice gives what preprocessing
    once gives. *)
Theorem preprocess_text_idempotent_no_punct
    (isalnum : char -> bool) (text : str) :
  Preprocess.no_punct isalnum text ->
  Preprocess.preprocess_text isalnum (Preprocess.preprocess_text isalnum text)
  = Preprocess.preprocess_text isalnum text.
Proof.
  intros H. rewrite (preprocess_text_no_punct isalnum text H).
  now apply preprocess_text_fixed.
Qed.

Lemma preprocess_text_idempotent_no_punct_witness :
  Preprocess.no_punct Preprocess.ascii_isalnum [32; 116; 101; 97; 9; 10; 116; 105; 109; 101; 32]
  /\ Preprocess.preprocess_text Preprocess.ascii_isalnum
       (Preprocess.preprocess_text Preprocess.ascii_isalnum
          [32; 116; 101; 97; 9; 10; 116; 105; 109; 101; 32])
     = Preprocess.preprocess_text Preprocess.ascii_isalnum
         [32; 116; 101; 97; 9; 10; 116; 105; 109; 101; 32].
Proof.
  assert (H : Preprocess.no_punct Preprocess.ascii_isalnum
                [32; 116; 101; 97; 9; 10; 116; 105; 109; 101; 32]).
  { intros c Hc. cbn in Hc.
    repeat (destruct Hc as [<-|Hc]; [reflexivity|]). destruct Hc. }
  split; [exact H|].
  apply (preprocess_text_idempotent_no_punct Preprocess.ascii_isalnum _ H).
Defined.

(** X7: after one pass nothing is left to delete, so the second pass
    reaches a fixed point: a third pass changes nothing. *)
Lemma preprocess_text_stable_after_two (isalnum : char -> bool) (text : str) :
  let once := Preprocess.preprocess_text isalnum text in
  let twice := Preprocess.preprocess_text isalnum once in
  Preprocess.preprocess_text isalnum twice = twice.
Proof.
  intros once twice. subst twice.
  assert (H : Preprocess.no_punct isalnum once)
    by apply remove_punct_no_punct.
  rewrite (preprocess_text_no_punct isalnum once H).
  now apply preprocess_text_fixed.
Qed.

(** C9 fails as stated: deleting the hyphen of [tea - time] leaves two
    adjacent spaces, which only a second pass collapses. *)
Lemma preprocess_text_not_idempotent :
  Preprocess.preprocess_text Preprocess.ascii_isalnum (lit "tea - time")
    = lit "tea  time"
  /\ Preprocess.preprocess_text Preprocess.ascii_isalnum
       (Preprocess.preprocess_text Preprocess.ascii_isalnum (lit "tea - time"))
    = lit "tea time"
  /\ Preprocess.preprocess_text Preprocess.ascii_isalnum
       (Preprocess.preprocess_text Preprocess.ascii_isalnum (lit "tea - time"))
    <> Preprocess.preprocess_text Preprocess.ascii_isalnum (lit "tea - time").
Proof. vm_compute. repeat split. discriminate. Qed.

(** In the upload path the chunker only sees preprocessed text, and that
    holds no sentence terminator once the character table does not count
    [.], [?] and [!] as alphanumeric. *)
Lemma preprocess_text_no_terminator (isalnum : char -> bool) (text : str) (c : char) :
  isalnum 46 = false -> isalnum 63 = false -> isalnum 33 = false ->
  In c (Preprocess.preprocess_text isalnum text) ->
  Chunker.is_terminator c = false.
Proof.
  intros H1 H2 H3 Hin. apply remove_punct_no_punct in Hin.
  destruct (Chunker.is_terminator c) eqn:E; [|reflexivity].
  unfold Chunker.is_terminator in E. unfold Preprocess.is_word in Hin.
  apply orb_prop in E as [E|E]; [apply orb_prop in E as [E|E]|];
    apply Z.eqb_eq in E; subst c; cbn in Hin;
    rewrite ?H1, ?H2, ?H3 in Hin; discriminate.
Qed.

(** ** UTF-8 decoding *)

Ltac bool_to_prop :=
  unfold Utf8.is_cont, Utf8.between in *;
  repeat match goal with
    | H : _ && _ = true |- _ => apply andb_prop in H as [? ?]
    | H : (_ <=? _) = true |- _ => apply Z.leb_le in H
    | H : (_ <=? _) = false |- _ => apply Z.leb_gt in H
    | H : _ && _ = false |- _ => apply andb_false_iff in H
    end.

Ltac encode_char_cases :=
  unfold Utf8.encode_char;
  repeat match goal with
    | |- context [?a <? ?b] => destruct (Z.ltb_spec a b)
    end;
  try (exfalso; lia);
  repeat f_equal; Z.div_mod_to_equations; lia.

Lemma encode_cons (c : char) (text : str) :
  Utf8.encode (c :: text) = Utf8.encode_char c ++ Utf8.encode text.
Proof. reflexivity. Qed.

Lemma decode_sound_bounded (n : nat) (bs : Utf8.bytes) (text : str) :
  (length bs <= n)%nat -> Utf8.decode bs = Some text ->
  Forall Utf8.is_scalar text /\ Utf8.encode text = bs.
Proof.
  revert bs text. induction n as [|n IH]; intros bs text Hlen.
  - destruct bs; [|simpl in Hlen; lia]. intros [= <-]. split; constructor.
  - destruct bs as [|b0 r0]; [intros [= <-]; split; constructor|].
    cbn [Utf8.decode].
    destruct (Utf8.between 0 127 b0) eqn:H1.
    { destruct (Utf8.decode r0) as [t|] eqn:E; [|discriminate].
      intros [= <-]. apply IH in E as [F Enc]; [|simpl in Hlen; lia].
      rewrite encode_cons, Enc. bool_to_prop. split.
      - constructor; [unfold Utf8.is_scalar; lia | exact F].
      - change (b0 :: r0) with ([b0] ++ r0). f_equal. encode_char_cases. }
    destruct (Utf8.between 194 223 b0) eqn:H2.
    { destruct r0 as [|b1 r1]; [discriminate|].
      destruct (Utf8.is_cont b1) eqn:H3; [|discriminate].
      destruct (Utf8.decode r1) as [t|] eqn:E; [|discriminate].
      intros [= <-]. apply IH in E as [F Enc]; [|simpl in Hlen; lia].
      rewrite encode_cons, Enc. bool_to_prop. split.
      - constructor; [unfold Utf8.is_scalar; lia | exact F].
      - change (b0 :: b1 :: r1) with ([b0; b1] ++ r1). f_equal.
        encode_char_cases. }
    destruct (Utf8.between 224 239 b0) eqn:H3.
    { destruct r0 as [|b1 [|b2 r2]]; try discriminate.
      match goal with
      | |- context [if ?c then _ else None] => destruct c eqn:H4; [|discriminate]
      end.
      destruct (Utf8.decode r2) as [t|] eqn:E; [|discriminate].
      intros [= <-]. apply IH in E as [F Enc]; [|simpl in Hlen; lia].
      rewrite encode_cons, Enc.
      destruct (Z.eqb_spec b0 224); destruct (Z.eqb_spec b0 237);
        bool_to_prop; (split;
          [ constructor; [unfold Utf8.is_scalar; lia | exact F]
          | change (b0 :: b1 :: b2 :: r2) with ([b0; b1; b2] ++ r2); f_equal;
            encode_char_cases ]). }
    destruct (Utf8.between 240 244 b0) eqn:H4; [|discriminate].
    destruct r0 as [|b1 [|b2 [|b3 r3]]]; try discriminate.
    match goal with
    | |- context [if ?c then _ else None] => destruct c eqn:H5; [|discriminate]
    end.
    destruct (Utf8.decode r3) as [t|] eqn:E; [|discriminate].
    intros [= <-]. apply IH in E as [F Enc]; [|simpl in Hlen; lia].
    rewrite encode_cons, Enc.
    destruct (Z.eqb_spec b0 240); destruct (Z.eqb_spec b0 244);
      bool_to_prop; (split;
        [ constructor; [unfold Utf8.is_scalar; lia | exact F]
        | change (b0 :: b1 :: b2 :: b3 :: r3) with ([b0; b1; b2; b3] ++ r3);
          f_equal; encode_char_cases ]).
Qed.

Lemma decode_sound (bs : Utf8.bytes) (text : str) :
  Utf8.decode bs = Some text ->
  Forall Utf8.is_scalar text /\ Utf8.encode text = bs.
Proof. apply (decode_sound_bounded (length bs)). lia. Qed.


Ltac settle_tests :=
  repeat (match goal with
          | |- context [?a =? ?b] => destruct (Z.eqb_spec a b)
          | |- context [?a <=? ?b] => destruct (Z.leb_spec a b)
          end;
          try (exfalso; Z.div_mod_to_equations; lia);
          cbn [andb]).

Lemma decode_encode_char (c : char) (rest : Utf8.bytes) :
  Utf8.is_scalar c ->
  Utf8.decode (Utf8.encode_char c ++ rest)
  = option_map (cons c) (Utf8.decode rest).
Proof.
  unfold Utf8.is_scalar, Utf8.encode_char. intros Hc.
  destruct (Z.ltb_spec c 128); [|destruct (Z.ltb_spec c 2048);
    [|destruct (Z.ltb_spec c 65536)]];
    cbn [app Utf8.decode]; unfold Utf8.is_cont, Utf8.between;
    settle_tests; do 2 f_equal; Z.div_mod_to_equations; lia.
Qed.

Lemma decode_encode (text : str) :
  Forall Utf8.is_scalar text -> Utf8.decode (Utf8.encode text) = Some text.
Proof.
  induction 1 as [|c text Hc _ IH]; [reflexivity|].
  now rewrite encode_cons, decode_encode_char, IH.
Qed.

(** The decoder accepts exactly the encodings of scalar value sequences. *)
Lemma decode_iff_encode (bs : Utf8.bytes) (text : str) :
  Utf8.decode bs = Some text
  <-> Forall Utf8.is_scalar text /\ Utf8.encode text = bs.
Proof.
  split; [apply decode_sound|]. intros [F <-]. now apply decode_encode.
Qed.

Lemma extract_txt_text_valid (txt_file : Utf8.bytes) :
  (exists text, Utf8.extract_txt_text txt_file = inr text)
  <-> Utf8.valid_utf8 txt_file.
Proof.
  unfold Utf8.extract_txt_text, Utf8.valid_utf8. split.
  - intros [text H]. destruct (Utf8.decode txt_file) as [t|] eqn:E; [|discriminate].
    exists t. now apply decode_sound.
  - intros [text [F E]]. exists text. subst txt_file.
    now rewrite (decode_encode text F).
Qed.

Lemma extract_txt_text_invalid (txt_file : Utf8.bytes) :
  ~ Utf8.valid_utf8 txt_file ->
  Utf8.extract_txt_text txt_file = inl UnicodeDecodeError.
Proof.
  intros H. unfold Utf8.extract_txt_text.
  destruct (Utf8.decode txt_file) as [t|] eqn:E; [|reflexivity].
  exfalso. apply H. exists t. now apply decode_sound.
Qed.

(** ** The upload path *)

Lemma endswith_true (s suffix : str) :
  endswith s suffix = true -> exists pre, s = pre ++ suffix.
Proof.
  unfold endswith. intros H. apply andb_prop in H as [H _].
  apply bool_decide_eq_true in H.
  exists (firstn (length s - length suffix) s).
  rewrite <- H at 2. symmetry. apply firstn_skipn.
Qed.

Lemma endswith_txt_not_pdf (filename : str) :
  endswith filename (lit ".txt") = true ->
  endswith filename (lit ".pdf") = false.
Proof.
  intros H. destruct (endswith filename (lit ".pdf")) eqn:E; [|reflexivity].
  apply endswith_true in H as [p1 H]. apply endswith_true in E as [p2 E].
  apply (f_equal (@rev _)) in H, E. rewrite rev_app_distr in H, E.
  rewrite H in E. discriminate E.
Qed.

Lemma endswith_txt_not_docx (filename : str) :
  endswith filename (lit ".txt") = true ->
  endswith filename (lit ".docx") = false.
Proof.
  intros H. destruct (endswith filename (lit ".docx")) eqn:E; [|reflexivity].
  apply endswith_true in H as [p1 H]. apply endswith_true in E as [p2 E].
  apply (f_equal (@rev _)) in H, E. rewrite rev_app_distr in H, E.
  rewrite H in E. discriminate E.
Qed.

Lemma extract_text_txt (w : World) (filename : str) (file_content : Utf8.bytes) :
  endswith filename (lit ".txt") = true ->
  Upload.extract_text w filename file_content
  = Upload.extract_txt_text file_content.
Proof.
  intros H. unfold Upload.extract_text.
  now rewrite (endswith_txt_not_pdf _ H), (endswith_txt_not_docx _ H), H.
Qed.

Lemma upload_file_unfold (w : World) (filename : str)
    (file_content : Utf8.bytes) (t : list Event) :
  Upload.upload_file w filename file_content t
  = match Upload.extract_text w filename file_content (t ++ [Call_file_read]) with
    | (inl e, t') => (inl e, t')
    | (inr extracted_text, t') => Upload.store_text w filename extracted_text t'
    end.
Proof. reflexivity. Qed.

(** C7: a file name with none of the three suffixes makes the handler raise
    the 400 error right after the payload was read, with no extractor,
    preprocessing, chunking, identifier or storage call in the trace; for
    a name with one of the suffixes the handler, after reading the payload,
    runs the extractor of that suffix on it: the extractor's exception is
    the handler's outcome, and the extractor's text is what the rest of the
    handler stores. *)
Theorem upload_file_dispatch (w : World) (filename : str)
    (file_content : Utf8.bytes) (t : list Event) :
  (endswith filename (lit ".pdf") = false ->
   endswith filename (lit ".docx") = false ->
   endswith filename (lit ".txt") = false ->
   Upload.upload_file w filename file_content t
     = (inl (HTTPException 400 (lit "Unsupported file type")),
        t ++ [Call_file_read])
   /\ List.filter Upload.is_processing
        (snd (Upload.upload_file w filename file_content t))
      = List.filter Upload.is_processing t)
  /\ (endswith filename (lit ".pdf") = true ->
      Upload.upload_file w filename file_content t
      = match Upload.extract_pdf_text w file_content (t ++ [Call_file_read]) with
        | (inl e, t') => (inl e, t')
        | (inr extracted_text, t') =>
            Upload.store_text w filename extracted_text t'
        end)
  /\ (endswith filename (lit ".pdf") = false ->
      endswith filename (lit ".docx") = true ->
      Upload.upload_file w filename file_content t
      = match Upload.extract_docx_text w file_content (t ++ [Call_file_read]) with
        | (inl e, t') => (inl e, t')
        | (inr extracted_text, t') =>
            Upload.store_text w filename extracted_text t'
        end)
  /\ (endswith filename (lit ".pdf") = false ->
      endswith filename (lit ".docx") = false ->
      endswith filename (lit ".txt") = true ->
      Upload.upload_file w filename file_content t
      = match Upload.extract_txt_text file_content (t ++ [Call_file_read]) with
        | (inl e, t') => (inl e, t')
        | (inr extracted_text, t') =>
            Upload.store_text w filename extracted_text t'
        end).
Proof.
  rewrite upload_file_unfold. unfold Upload.extract_text.
  refine (conj _ (conj _ (conj _ _))).
  - intros -> -> ->. unfold raise. split; [reflexivity|].
    cbn [snd]. rewrite List.filter_app. cbn. apply app_nil_r.
  - now intros ->.
  - now intros -> ->.
  - now intros -> -> ->.
Qed.

Lemma upload_file_dispatch_witness :
  (endswith (lit "notes.md") (lit ".pdf") = false
   /\ endswith (lit "notes.md") (lit ".docx") = false
   /\ endswith (lit "notes.md") (lit ".txt") = false)
  /\ Upload.upload_file Samples.healthy (lit "notes.md") [35; 32; 104; 105] []
     = (inl (HTTPException 400 (lit "Unsupported file type")), [Call_file_read])
  /\ endswith (lit "a.pdf") (lit ".pdf") = true
  /\ Upload.upload_file Samples.healthy (lit "a.pdf") [37; 80; 68; 70] []
     = Upload.store_text Samples.healthy (lit "a.pdf") (lit "page one")
         [Call_file_read; Call_extract_pdf_text [37; 80; 68; 70]].
Proof.
  split; [repeat split|]. split; [|split; [reflexivity|]].
  - apply (upload_file_dispatch Samples.healthy (lit "notes.md")
             [35; 32; 104; 105] []); reflexivity.
  - destruct (upload_file_dispatch Samples.healthy (lit "a.pdf")
                [37; 80; 68; 70] []) as (_ & Hpdf & _).
    rewrite (Hpdf eq_refl). reflexivity.
Defined.

(** C10: extraction of a text file succeeds exactly when the payload is
    valid UTF-8; for a name ending in [.txt] an invalid payload makes the
    handler raise [UnicodeDecodeError] at the extraction step, which is not
    the 400 error of an unsupported type, and a valid payload is handed on,
    decoded, to the rest of the handler. *)
Theorem upload_txt_requires_utf8 (w : World) (filename : str)
    (file_content : Utf8.bytes) (t : list Event) :
  endswith filename (lit ".txt") = true ->
  ((exists text, Utf8.extract_txt_text file_content = inr text)
   <-> Utf8.valid_utf8 file_content)
  /\ (~ Utf8.valid_utf8 file_content ->
      Upload.upload_file w filename file_content t
      = (inl UnicodeDecodeError,
         t ++ [Call_file_read] ++ [Call_extract_txt_text file_content])
      /\ UnicodeDecodeError <> HTTPException 400 (lit "Unsupported file type"))
  /\ (forall text,
      Forall Utf8.is_scalar text -> Utf8.encode text = file_content ->
      Upload.upload_file w filename file_content t
      = Upload.store_text w filename text
          (t ++ [Call_file_read] ++ [Call_extract_txt_text file_content])).
Proof.
  intros Htxt. split; [apply extract_txt_text_valid|].
  rewrite upload_file_unfold, (extract_text_txt w _ _ Htxt).
  unfold Upload.extract_txt_text, call. rewrite <- app_assoc. split.
  - intros Hbad. rewrite (extract_txt_text_invalid _ Hbad).
    split; [reflexivity | discriminate].
  - intros text F E. unfold Utf8.extract_txt_text.
    subst file_content. now rewrite (decode_encode text F).
Qed.

Lemma upload_txt_requires_utf8_witness :
  endswith (lit "memo.txt") (lit ".txt") = true
  /\ Upload.upload_file Samples.healthy (lit "memo.txt") [116; 233; 97] []
     = (inl UnicodeDecodeError,
        [Call_file_read; Call_extract_txt_text [116; 233; 97]]).
Proof.
  split; [reflexivity|].
  apply (upload_txt_requires_utf8 Samples.healthy (lit "memo.txt")
           [116; 233; 97] [] eq_refl).
  intros [text [F E]].
  apply (decode_encode text) in F. rewrite E in F. discriminate F.
Defined.

(** ** The chat path *)

Section ChatFacts.

Import Chat.

Lemma keys_dict_set_old (d : dict) (key value : str) :
  In key (keys d) -> keys (dict_set d key value) = keys d.
Proof.
  induction d as [|[k v] rest IH]; [intros []|].
  cbn [dict_set]. case_bool_decide as Hk.
  - reflexivity.
  - intros [E|H]; [contradiction|]. cbn. f_equal. now apply IH.
Qed.

Lemma keys_dict_set_new (d : dict) (key value : str) :
  ~ In key (keys d) -> keys (dict_set d key value) = keys d ++ [key].
Proof.
  induction d as [|[k v] rest IH]; [reflexivity|].
  cbn [dict_set]. intros H. case_bool_decide as Hk.
  - exfalso. apply H. now left.
  - cbn. f_equal. apply IH. intros Hin. apply H. now right.
Qed.

Lemma dict_get_set_same (d : dict) (key value : str) :
  dict_get (dict_set d key value) key = Some value.
Proof.
  induction d as [|[k v] rest IH]; cbn [dict_set dict_get].
  - now rewrite bool_decide_eq_true_2.
  - case_bool_decide as Hk; cbn [dict_get].
    + now rewrite bool_decide_eq_true_2.
    + now rewrite bool_decide_eq_false_2.
Qed.

Lemma dict_get_set_other (d : dict) (key value other : str) :
  other <> key -> dict_get (dict_set d key value) other = dict_get d other.
Proof.
  intros Hne. induction d as [|[k v] rest IH]; cbn [dict_set dict_get].
  - rewrite bool_decide_eq_false_2; [reflexivity | congruence].
  - case_bool_decide as Hk; cbn [dict_get].
    + subst k. now rewrite !bool_decide_eq_false_2 by congruence.
    + now rewrite IH.
Qed.

Lemma length_dict_set_old (d : dict) (key value : str) :
  In key (keys d) -> length (dict_set d key value) = length d.
Proof.
  intros H. pose proof (keys_dict_set_old d key value H) as E.
  apply (f_equal (@length _)) in E.
  unfold keys in E. now rewrite !length_map in E.
Qed.

Lemma first_occurrences_step (m : str) (l : list str)
    (d : dict) (value : str) :
  keys d ++ first_occurrences (keys d) (m :: l)
  = keys (dict_set d m value)
    ++ first_occurrences (keys (dict_set d m value)) l.
Proof.
  cbn [first_occurrences]. case_bool_decide as Hm.
  - apply list_elem_of_In in Hm. now rewrite keys_dict_set_old.
  - rewrite keys_dict_set_new by (intros H; now apply Hm, list_elem_of_In).
    now rewrite <- app_assoc.
Qed.

Variable w : World.

Lemma llm_chat_chain_run (query context history : str) (t : list Event) :
  llm_chat_chain w query context history t
  = (chat_client w (format_prompt context history query),
     t ++ [Call_chat_client (format_prompt context history query)]).
Proof.
  unfold llm_chat_chain, bind, call, ret.
  now destruct (chat_client w _).
Qed.

Lemma answer_search_raises (message : str) (history_data : dict)
    (t : list Event) (e : Exn) :
  similarity_search w message 2 = inl e ->
  answer w message history_data t
  = (inl e, t ++ [Call_similarity_search message 2]).
Proof. intros H. unfold answer, bind, call. now rewrite H. Qed.

Lemma answer_search_ok (message : str) (history_data : dict)
    (t : list Event) (results : list Document) :
  similarity_search w message 2 = inr results ->
  answer w message history_data t
  = llm_chat_chain w message (build_context results)
      (build_history history_data)
      (t ++ [Call_similarity_search message 2]).
Proof. intros H. unfold answer, bind, call. now rewrite H. Qed.

Lemma chat_turn_answers (message : str) (history_data : dict)
    (t : list Event) :
  always_answers w ->
  exists response t',
    chat_turn w message history_data t
    = ((inr tt, dict_set history_data message response), t').
Proof.
  intros (Hs & Hc & Hsend). unfold chat_turn.
  destruct (Hs message 2) as [results Hr].
  rewrite (answer_search_ok _ _ _ _ Hr), llm_chat_chain_run.
  destruct (Hc (format_prompt (build_context results)
                  (build_history history_data) message)) as [resp ->].
  unfold call. rewrite Hsend. eauto.
Qed.

Lemma chat_loop_keys (frames : list str) (history_data : dict)
    (t : list Event) :
  exists n,
    (n <= length frames)%nat
    /\ keys (snd (fst (chat_loop w frames history_data t)))
       = keys history_data
         ++ first_occurrences (keys history_data) (firstn n frames).
Proof.
  revert history_data t. induction frames as [|m rest IH]; intros h t.
  - exists 0%nat. split; [lia|]. cbn. now rewrite app_nil_r.
  - cbn [chat_loop]. unfold chat_turn.
    destruct (answer w m h _) as [[e|r] t'].
    + exists 0%nat. split; [cbn; lia|]. cbn. now rewrite app_nil_r.
    + unfold call. destruct (send_text w r) as [e|[]].
      * exists 1%nat. split; [cbn; lia|]. cbn [fst snd].
        change (firstn 1 (m :: rest)) with [m].
        rewrite (first_occurrences_step m [] h r).
        cbn. now rewrite app_nil_r.
      * destruct (IH (dict_set h m r) (t' ++ [Call_send_text r]))
          as [n [Hn E]].
        exists (S n). split; [cbn; lia|]. rewrite E. cbn [firstn].
        symmetry. apply first_occurrences_step.
Qed.

Lemma chat_loop_keys_all (frames : list str) (history_data : dict)
    (t : list Event) :
  always_answers w ->
  keys (snd (fst (chat_loop w frames history_data t)))
  = keys history_data ++ first_occurrences (keys history_data) frames.
Proof.
  intros Hw. revert history_data t.
  induction frames as [|m rest IH]; intros h t.
  - cbn. now rewrite app_nil_r.
  - cbn [chat_loop].
    destruct (chat_turn_answers m h (t ++ [Call_receive_text m]) Hw)
      as (r & t' & ->).
    rewrite IH. symmetry. apply first_occurrences_step.
Qed.

End ChatFacts.


Lemma healthy_always_answers : Chat.always_answers Samples.healthy.
Proof. repeat split; intros; eexists; reflexivity. Qed.

(** C1 fails as stated: with a maximum of two turns, the three questions
    [Q1], [Q2], [Q3] leave a history of three entries that still starts with
    [Q1], where a bounded first-in-first-out history would be [Q2], [Q3]. *)
Lemma history_exceeds_two_turns :
  Chat.keys (Chat.history_after Samples.healthy [lit "Q1"; lit "Q2"; lit "Q3"])
    = [lit "Q1"; lit "Q2"; lit "Q3"]
  /\ ~ (length (Chat.history_after Samples.healthy
                  [lit "Q1"; lit "Q2"; lit "Q3"]) <= 2)%nat
  /\ Chat.keys (Chat.history_after Samples.healthy [lit "Q1"; lit "Q2"; lit "Q3"])
     <> [lit "Q2"; lit "Q3"].
Proof. vm_compute. repeat split; [lia | discriminate]. Qed.

(** C3, as the code has it: when the similarity search raises, the
    exception leaves the turn at once: the trace gains the search call and
    nothing else (no call to the chat model, nothing sent), the history is
    the one before the turn, and the loop ends with that exception, the
    frames still waiting unread. *)
Theorem chat_turn_search_failure_escapes (w : World) (message : str)
    (rest : list str) (history_data : Chat.dict) (t : list Event) (e : Exn) :
  similarity_search w message 2 = inl e ->
  Chat.chat_turn w message history_data t
    = ((inl e, history_data), t ++ [Call_similarity_search message 2])
  /\ Chat.chat_loop w (message :: rest) history_data t
     = ((e, history_data),
        t ++ [Call_receive_text message] ++ [Call_similarity_search message 2]).
Proof.
  intros H. unfold Chat.chat_loop, Chat.chat_turn.
  rewrite !(answer_search_raises w _ _ _ _ H). rewrite <- app_assoc.
  split; reflexivity.
Qed.

Lemma chat_turn_search_failure_escapes_witness :
  similarity_search Samples.store_down (lit "what is tea") 2
    = inl (BackendError 503)
  /\ Chat.chat_turn Samples.store_down (lit "what is tea") [] []
     = ((inl (BackendError 503), []),
        [Call_similarity_search (lit "what is tea") 2]).
Proof.
  split; [reflexivity|].
  apply (chat_turn_search_failure_escapes Samples.store_down
           (lit "what is tea") [] [] [] (BackendError 503) eq_refl).
Defined.

(** C3 fails as stated: with the vector store down, the handler run on one
    frame ends with the store's exception; the trace shows the accept, the
    frame and the search, no completion and no response, and the history
    stays empty. *)
Lemma chat_store_down_no_degraded_mode :
  Chat.chat Samples.store_down [lit "what is tea"] []
  = ((Some (BackendError 503), []),
     [Call_accept; Call_receive_text (lit "what is tea");
      Call_similarity_search (lit "what is tea") 2])
  /\ Chat.chat_client_calls
       (snd (Chat.chat Samples.store_down [lit "what is tea"] [])) = 0%nat.
Proof. vm_compute. split; reflexivity. Qed.

(** C6, as the code has it: whatever its length, the assembled prompt goes
    to the chat model, in exactly one call, and the step returns what the
    model returns; no length is checked and no prompt is refused. *)
Theorem llm_chat_chain_always_calls_backend (w : World)
    (query context history : str) (t : list Event) :
  Chat.llm_chat_chain w query context history t
    = (chat_client w (Chat.format_prompt context history query),
       t ++ [Call_chat_client (Chat.format_prompt context history query)])
  /\ Chat.chat_client_calls
       (snd (Chat.llm_chat_chain w query context history t))
     = S (Chat.chat_client_calls t).
Proof.
  rewrite llm_chat_chain_run. split; [reflexivity|].
  unfold Chat.chat_client_calls. cbn [snd].
  rewrite List.filter_app, length_app. cbn. lia.
Qed.

(** C6 fails as stated: for a limit of 100 characters, the prompt built
    from an empty context, an empty history and the question [hi] is 121
    characters long, and the step still calls the chat model once and
    returns its answer. *)
Lemma llm_chat_chain_long_prompt_sent :
  (100 < length (Chat.format_prompt [] [] (lit "hi")))%nat
  /\ Chat.llm_chat_chain Samples.healthy (lit "hi") [] [] []
     = (inr (lit "answer 121"),
        [Call_chat_client (Chat.format_prompt [] [] (lit "hi"))])
  /\ Chat.chat_client_calls
       (snd (Chat.llm_chat_chain Samples.healthy (lit "hi") [] [] [])) = 1%nat.
Proof. split; [vm_compute; lia | split; vm_compute; reflexivity]. Qed.

(** C8: a message whose text is already a key of the history, once
    answered, leaves the keys and their order as they were, so the length
    does not grow; the entry of that text now holds the new response, and
    every other entry is untouched. *)
Theorem chat_turn_repeated_message_overwrites (w : World) (message : str)
    (history_data : Chat.dict) (t t' : list Event) (response : str) :
  In message (Chat.keys history_data) ->
  Chat.answer w message history_data t = (inr response, t') ->
  let history_data' := snd (fst (Chat.chat_turn w message history_data t)) in
  Chat.keys history_data' = Chat.keys history_data
  /\ length history_data' = length history_data
  /\ Chat.dict_get history_data' message = Some response
  /\ forall other, other <> message ->
       Chat.dict_get history_data' other = Chat.dict_get history_data other.
Proof.
  intros Hin Hans. unfold Chat.chat_turn. rewrite Hans. unfold call.
  cbn [fst snd]. split; [now apply keys_dict_set_old|].
  split; [now apply length_dict_set_old|].
  split; [apply dict_get_set_same|].
  intros other Hne. now apply dict_get_set_other.
Qed.

Lemma chat_turn_repeated_message_overwrites_witness :
  In (lit "Q1") (Chat.keys [(lit "Q1", lit "old"); (lit "Q2", lit "r2")])
  /\ Chat.keys (snd (fst (Chat.chat_turn Samples.healthy (lit "Q1")
                            [(lit "Q1", lit "old"); (lit "Q2", lit "r2")] [])))
     = Chat.keys [(lit "Q1", lit "old"); (lit "Q2", lit "r2")].
Proof.
  split; [left; reflexivity|].
  eapply (chat_turn_repeated_message_overwrites Samples.healthy (lit "Q1")
            [(lit "Q1", lit "old"); (lit "Q2", lit "r2")] []).
  - left; reflexivity.
  - vm_compute. reflexivity.
Defined.

(** ** Concurrent connections *)

Section ServerFacts.

Import Server.

Variable w : World.

Lemma busy_after_app (b : bool) (t t' : list Event) :
  busy_after b (t ++ t')
  = match busy_after b t with
    | Some b' => busy_after b' t'
    | None => None
    end.
Proof.
  revert b. induction t as [|ev t IH]; intros b; [reflexivity|].
  destruct ev, b; cbn [app busy_after]; auto.
Qed.

Lemma busy_after_in_flight (b b' : bool) (t : list Event) :
  busy_after b t = Some b' ->
  in_flight_from (if b then 1 else 0) t = if b' then 1%nat else 0%nat.
Proof.
  revert b. induction t as [|ev t IH]; intros b.
  - now intros [= ->].
  - destruct ev, b; cbn [busy_after in_flight_from]; try discriminate;
      intros H; apply IH in H; exact H.
Qed.

Lemma answer_trace (message : str) (history_data : Chat.dict)
    (t : list Event) :
  exists evs,
    snd (Chat.answer w message history_data t) = t ++ evs
    /\ busy_after true evs = Some true.
Proof.
  destruct (similarity_search w message 2) as [e|results] eqn:E.
  - rewrite (answer_search_raises w _ _ _ _ E). now eexists.
  - rewrite (answer_search_ok w _ _ _ _ E), llm_chat_chain_run.
    cbn [snd]. rewrite <- app_assoc. now eexists.
Qed.

Lemma received_trace (message : str) (history_data : Chat.dict)
    (t : list Event) :
  busy_after false t = Some false ->
  busy_after false
    (snd (Chat.answer w message history_data (t ++ [Call_receive_text message])))
  = Some true.
Proof.
  intros H. destruct (answer_trace message history_data
                        (t ++ [Call_receive_text message])) as [evs [-> Hevs]].
  now rewrite !busy_after_app, H.
Qed.

Lemma leave_closed (ws : nat) (e : Exn) (active : list nat) :
  exists raised, fst (leave ws e active) = Closed raised.
Proof. now eexists. Qed.

Lemma conn_inv_closed (raised : option Exn) (inbox : list str)
    (history_data : Chat.dict) (t : list Event) (b : bool) :
  busy_after false t = Some b ->
  conn_inv (mkConn (Closed raised) inbox history_data t).
Proof. intros H. unfold conn_inv, sequential. cbn. now rewrite H. Qed.

Lemma step_preserves_inv (s s' : State) (l : Label) :
  step w s l s' ->
  (forall ws c, conns s !! ws = Some c -> conn_inv c) ->
  forall ws c, conns s' !! ws = Some c -> conn_inv c.
Proof.
  intros Hstep Hinv ws' c'.
  destruct Hstep as
    [ s ws Hnone
    | s ws c Hc Hpc
    | s ws c message Hc
    | s ws c message rest response t' Hc Hpc Hin Hans
    | s ws c message rest e t' Hc Hpc Hin Hans
    | s ws c message response Hc Hpc Hsend
    | s ws c message response e Hc Hpc Hsend
    | s ws c Hc Hpc Hin ];
    cbn [conns]; intros Hl;
    apply lookup_insert_Some in Hl as [[<- <-]|[_ Hl]];
    try (now apply (Hinv _ _ Hl));
    try (pose proof (Hinv _ _ Hc) as Hi; unfold conn_inv in Hi;
         rewrite Hpc in Hi).
  - reflexivity.
  - unfold conn_inv. cbn. now rewrite Hi.
  - exact (Hinv _ _ Hc).
  - unfold conn_inv. cbn.
    pose proof (received_trace message (history_data c) _ Hi) as Ht.
    now rewrite Hans in Ht.
  - destruct (leave_closed ws e (active_connections s)) as [r ->].
    apply (conn_inv_closed _ _ _ _ true).
    pose proof (received_trace message (history_data c) _ Hi) as Ht.
    now rewrite Hans in Ht.
  - unfold conn_inv. cbn. now rewrite busy_after_app, Hi.
  - destruct (leave_closed ws e (active_connections s)) as [r ->].
    apply (conn_inv_closed _ _ _ _ false). now rewrite busy_after_app, Hi.
  - now apply (conn_inv_closed _ _ _ _ false).
Qed.

Lemma reachable_inv (s : State) :
  reachable w s -> forall ws c, conns s !! ws = Some c -> conn_inv c.
Proof.
  induction 1 as [|s l s' _ IH Hstep].
  - intros ws c H. cbn in H. now rewrite lookup_empty in H.
  - now apply (step_preserves_inv s s' l).
Qed.

Lemma conn_inv_sequential (c : Conn) :
  conn_inv c ->
  sequential (trace c) = true /\ (in_flight (trace c) <= 1)%nat.
Proof.
  unfold conn_inv, sequential, in_flight. intros H.
  destruct (busy_after false (trace c)) as [b|] eqn:E.
  - split; [reflexivity|].
    rewrite (busy_after_in_flight false b _ E). destruct b; lia.
  - destruct (pc c); try discriminate. rewrite H in E. discriminate.
Qed.

(** A step of one connection leaves the coroutines of the others as they
    were. *)
Lemma step_other_untouched (s s' : State) (l : Label) (ws : nat) :
  step w s l s' ->
  match l with
  | Open x | Accepted x | Arrive x _ | Received x | Sent x | Hangup x => x
  end <> ws ->
  conns s' !! ws = conns s !! ws.
Proof.
  intros Hstep Hne. destruct Hstep; cbn [conns] in *;
    now apply lookup_insert_ne.
Qed.

End ServerFacts.

(** C2: in every state that some interleaving of the connections' steps
    reaches, the trace of every connection is sequential (no frame is taken
    while a request of that connection is open, and backend calls and sends
    only happen for the open one), at most one of its requests is in
    flight, and a frame that arrives meanwhile is only appended to the
    connection's queue: suspension point, history and trace stay as they
    are. *)
Theorem one_request_in_flight_per_connection (w : World) (s : Server.State)
    (ws : nat) (c : Server.Conn) :
  Server.reachable w s ->
  Server.conns s !! ws = Some c ->
  Server.sequential (Server.trace c) = true
  /\ (Server.in_flight (Server.trace c) <= 1)%nat
  /\ forall message s',
       Server.step w s (Server.Arrive ws message) s' ->
       Server.conns s' !! ws
       = Some (Server.mkConn (Server.pc c) (Server.inbox c ++ [message])
                 (Server.history_data c) (Server.trace c)).
Proof.
  intros Hr Hc.
  destruct (conn_inv_sequential c (reachable_inv w s Hr ws c Hc)) as [Hs Hf].
  split; [exact Hs|]. split; [exact Hf|].
  intros message s' Hstep. inversion Hstep; subst. cbn [Server.conns].
  rewrite lookup_insert_eq.
  match goal with H : Server.conns s !! ws = Some _ |- _ =>
    rewrite Hc in H; injection H as <- end.
  reflexivity.
Qed.


Lemma busy_reachable : Server.reachable Samples.healthy Samples.busy.
Proof.
  assert (H : exists s, Server.reachable Samples.healthy s /\ s = Samples.busy).
  { eexists. split.
    - eapply Server.reachable_step.
      + eapply Server.reachable_step.
        * eapply Server.reachable_step.
          -- eapply Server.reachable_step.
             ++ eapply Server.reachable_step.
                ** apply Server.reachable_init.
                ** apply (Server.step_open _ _ 1%nat). reflexivity.
             ++ eapply (Server.step_accepted _ _ 1%nat); reflexivity.
          -- eapply (Server.step_arrive _ _ 1%nat _ (lit "hi")). reflexivity.
        * eapply (Server.step_received_ok _ _ 1%nat);
            [reflexivity | reflexivity | reflexivity | vm_compute; reflexivity].
      + eapply (Server.step_arrive _ _ 1%nat _ (lit "and then")). reflexivity.
    - vm_compute. reflexivity. }
  destruct H as (s & H & <-). exact H.
Qed.

Lemma one_request_in_flight_per_connection_witness :
  Server.reachable Samples.healthy Samples.busy
  /\ Server.conns Samples.busy !! 1%nat = Some Samples.busy_conn
  /\ Server.sequential (Server.trace Samples.busy_conn) = true
  /\ (Server.in_flight (Server.trace Samples.busy_conn) <= 1)%nat.
Proof.
  split; [exact busy_reachable|]. split; [reflexivity|].
  destruct (one_request_in_flight_per_connection Samples.healthy Samples.busy
              1%nat Samples.busy_conn busy_reachable eq_refl) as (Hs & Hf & _).
  split; assumption.
Defined.


(** The coroutine of one connection, stepped on its own from the top of the
    loop, ends where the sequential loop ends: same history, same trace,
    same escaping exception. *)
Lemma chat_loop_simulated (w : World) (frames : list str) (s : Server.State)
    (ws : nat) (history_data : Chat.dict) (t : list Event) :
  Server.conns s !! ws
    = Some (Server.mkConn Server.AwaitReceive frames history_data t) ->
  exists s' rest,
    Server.steps w s s'
    /\ Server.conns s' !! ws
       = Some (Server.mkConn
                 (Server.Closed
                    (Chat.escaped
                       (fst (fst (Chat.chat_loop w frames history_data t)))))
                 rest
                 (snd (fst (Chat.chat_loop w frames history_data t)))
                 (snd (Chat.chat_loop w frames history_data t))).
Proof.
  revert s history_data t. induction frames as [|m rest IH]; intros s h t Hc.
  - do 2 eexists. split.
    + eapply Server.steps_cons; [|apply Server.steps_refl].
      eapply Server.step_hangup; [exact Hc | reflexivity | reflexivity].
    + cbn. now rewrite lookup_insert_eq.
  - cbn [Chat.chat_loop]. unfold Chat.chat_turn.
    destruct (Chat.answer w m h (t ++ [Call_receive_text m]))
      as [[e|r] t'] eqn:Hans.
    + do 2 eexists. split.
      * eapply Server.steps_cons; [|apply Server.steps_refl].
        eapply Server.step_received_raise;
          [exact Hc | reflexivity | reflexivity | exact Hans].
      * cbn. now rewrite lookup_insert_eq.
    + unfold call. destruct (send_text w r) as [e|[]] eqn:Hsend.
      * do 2 eexists. split.
        -- eapply Server.steps_cons;
             [eapply Server.step_received_ok;
                [exact Hc | reflexivity | reflexivity | exact Hans]|].
           eapply Server.steps_cons; [|apply Server.steps_refl].
           eapply Server.step_sent_raise;
             [cbn; apply lookup_insert_eq | reflexivity | exact Hsend].
        -- cbn. now rewrite lookup_insert_eq.
      * pose proof (Server.step_received_ok w s ws _ m rest r t'
                      Hc eq_refl eq_refl Hans) as H1.
        match type of H1 with
        | Server.step _ _ _ ?s1 =>
            assert (H2 : exists s2,
                      Server.step w s1 (Server.Sent ws) s2
                      /\ Server.conns s2 !! ws
                         = Some (Server.mkConn Server.AwaitReceive rest
                                   (Chat.dict_set h m r)
                                   (t' ++ [Call_send_text r])))
        end.
        { eexists. split.
          - eapply Server.step_sent_ok;
              [cbn; apply lookup_insert_eq | reflexivity | exact Hsend].
          - cbn. apply lookup_insert_eq. }
        destruct H2 as (s2 & H2 & Hl2).
        destruct (IH s2 _ _ Hl2) as (s' & rest' & Hsteps & Hl).
        exists s', rest'. split; [|exact Hl].
        eapply Server.steps_cons; [exact H1|].
        eapply Server.steps_cons; [exact H2 | exact Hsteps].
Qed.


(** * Further properties *)

(** ** Chunking: sizes and edge cases *)

(** X1: a chunk size of zero raises [ValueError] on every text, the empty
    one included; a negative chunk size returns no chunk at all, whatever
    the text. *)
Theorem chunk_text_nonpositive_size (text : str) (chunk_size : Z) :
  Chunker.chunk_text text 0 = inl ValueError
  /\ (chunk_size < 0 -> Chunker.chunk_text text chunk_size = inr []).
Proof.
  split; [reflexivity|]. intros Hn.
  unfold Chunker.chunk_text, py_range, range_len.
  destruct (Z.eqb_spec chunk_size 0); [lia|].
  destruct (Z.ltb_spec 0 chunk_size); [lia|].
  destruct (Z.ltb_spec chunk_size 0); [|lia].
  destruct (Z.ltb_spec (Z.of_nat (length text)) 0); [lia|]. reflexivity.
Qed.

Lemma chunk_text_nonpositive_size_witness :
  -3 < 0 /\ Chunker.chunk_text (lit "some text") (-3) = inr [].
Proof.
  split; [lia|]. apply (chunk_text_nonpositive_size (lit "some text") (-3)). lia.
Defined.

(** X2: for a positive chunk size the number of chunks is the length of the
    text divided by the chunk size, rounded up; no chunk is empty and none
    is longer than the chunk size.  The empty text gives no chunk. *)
Theorem chunk_text_sizes (text : str) (chunk_size : Z) :
  0 < chunk_size ->
  exists chunks,
    Chunker.chunk_text text chunk_size = inr chunks
    /\ Z.of_nat (length chunks)
       = (Z.of_nat (length text) + chunk_size - 1) / chunk_size
    /\ Forall (fun chunk => 0 < Z.of_nat (length chunk) <= chunk_size) chunks
    /\ (text = [] -> chunks = []).
Proof.
  intros Hc. eexists. split; [now apply chunk_text_windows|].
  pose proof (chunk_count_tight text chunk_size Hc) as Ht.
  assert (Hlen : Z.of_nat (length (Chunker.windows (Z.to_nat chunk_size)
                    (Chunker.chunk_count (length text) chunk_size) text))
                 = (Z.of_nat (length text) + chunk_size - 1) / chunk_size).
  { unfold Chunker.windows, Chunker.chunk_count.
    rewrite length_map, length_seq, range_len_forward by lia.
    apply Z2Nat.id. apply Z.div_pos; lia. }
  split; [exact Hlen|]. split.
  - apply List.Forall_forall. intros chunk Hin.
    apply In_nth_error in Hin as [k Hin]. unfold Chunker.windows in Hin.
    apply nth_error_map_seq in Hin as [Hk ->]. cbn [Nat.add].
    rewrite length_firstn, length_skipn. nia.
  - intros ->. unfold Chunker.chunk_count. cbn [length].
    rewrite range_len_forward by lia.
    rewrite Z.div_small by lia. reflexivity.
Qed.

Lemma chunk_text_sizes_witness :
  0 < 3 /\
  exists chunks,
    Chunker.chunk_text (lit "abcdefg") 3 = inr chunks
    /\ Z.of_nat (length chunks) = (Z.of_nat (length (lit "abcdefg")) + 3 - 1) / 3
    /\ Forall (fun chunk => 0 < Z.of_nat (length chunk) <= 3) chunks
    /\ (lit "abcdefg" = [] -> chunks = []).
Proof. split; [lia | apply (chunk_text_sizes (lit "abcdefg") 3); lia]. Defined.

(** ** Preprocessing: what comes out *)

Lemma In_sub_ws_from_origin (b : bool) (text : str) (c : char) :
  In c (Preprocess.sub_ws_from b text) ->
  c = 32 \/ (In c text /\ Preprocess.is_space c = false).
Proof.
  revert b. induction text as [|d rest IH]; intros b; [intros []|].
  cbn [Preprocess.sub_ws_from]. destruct (Preprocess.is_space d) eqn:Hd.
  - destruct b.
    + intros H. apply IH in H as [->|[H Hc]]; [now left | right; split; [now right | exact Hc]].
    + intros [<-|H]; [now left|].
      apply IH in H as [->|[H Hc]]; [now left | right; split; [now right | exact Hc]].
  - intros [<-|H]; [right; split; [now left | exact Hd]|].
    apply IH in H as [->|[H Hc]]; [now left | right; split; [now right | exact Hc]].
Qed.

(** X3: every character of preprocessed text is a word character or the
    plain space U+0020; in particular the only whitespace left is the plain
    space: no tab, no newline, no other Unicode space. *)
Theorem preprocess_text_alphabet (isalnum : char -> bool) (text : str) (c : char) :
  In c (Preprocess.preprocess_text isalnum text) ->
  (Preprocess.is_word isalnum c = true \/ c = 32)
  /\ (Preprocess.is_space c = true -> c = 32).
Proof.
  unfold Preprocess.preprocess_text, Preprocess.remove_punct. intros H.
  apply filter_In in H as [H Hp].
  apply In_strip, In_sub_ws_from_origin in H as [->|[_ Hs]].
  - split; [now right | reflexivity].
  - rewrite Hs, orb_false_r in Hp. split; [now left | congruence].
Qed.

Lemma preprocess_text_alphabet_witness :
  In 97 (Preprocess.preprocess_text Preprocess.ascii_isalnum [97; 44; 9; 98])
  /\ (Preprocess.is_word Preprocess.ascii_isalnum 97 = true \/ 97 = 32).
Proof.
  assert (H : In 97 (Preprocess.preprocess_text Preprocess.ascii_isalnum
                       [97; 44; 9; 98])) by (left; reflexivity).
  split; [exact H|].
  apply (preprocess_text_alphabet Preprocess.ascii_isalnum _ 97 H).
Defined.

Lemma length_sub_ws_from (b : bool) (text : str) :
  (length (Preprocess.sub_ws_from b text) <= length text)%nat.
Proof.
  revert b. induction text as [|c rest IH]; intros b; [reflexivity|].
  cbn [Preprocess.sub_ws_from]. destruct (Preprocess.is_space c).
  - destruct b; cbn [length].
    + specialize (IH true). lia.
    + specialize (IH true). lia.
  - cbn [length]. specialize (IH false). lia.
Qed.

Lemma length_lstrip (text : str) :
  (length (Preprocess.lstrip text) <= length text)%nat.
Proof.
  destruct (lstrip_split text) as [ws [E _]].
  rewrite E at 2. rewrite length_app. lia.
Qed.

Lemma length_strip (text : str) :
  (length (Preprocess.strip text) <= length text)%nat.
Proof.
  unfold Preprocess.strip.
  destruct (rstrip_split (Preprocess.lstrip text)) as [ws E].
  pose proof (length_lstrip text) as Hl. rewrite E in Hl.
  rewrite length_app in Hl. lia.
Qed.

(** X4: preprocessing never lengthens a text. *)
Theorem preprocess_text_length (isalnum : char -> bool) (text : str) :
  (length (Preprocess.preprocess_text isalnum text) <= length text)%nat.
Proof.
  unfold Preprocess.preprocess_text, Preprocess.remove_punct, Preprocess.sub_ws.
  etransitivity; [apply filter_length_le|].
  etransitivity; [apply length_strip|]. apply length_sub_ws_from.
Qed.

Lemma sub_ws_from_blank (text : str) :
  Forall (fun c => Preprocess.is_space c = true) text ->
  Preprocess.sub_ws_from true text = [].
Proof.
  induction 1 as [|c rest Hc _ IH]; [reflexivity|].
  cbn [Preprocess.sub_ws_from]. now rewrite Hc.
Qed.

(** X5: a text made of whitespace only, the empty text included, is
    preprocessed to the empty text. *)
Theorem preprocess_text_blank (isalnum : char -> bool) (text : str) :
  Forall (fun c => Preprocess.is_space c = true) text ->
  Preprocess.preprocess_text isalnum text = [].
Proof.
  intros H. unfold Preprocess.preprocess_text, Preprocess.sub_ws.
  destruct H as [|c rest Hc Hrest]; [reflexivity|].
  cbn [Preprocess.sub_ws_from]. rewrite Hc, (sub_ws_from_blank rest Hrest).
  reflexivity.
Qed.

Lemma preprocess_text_blank_witness :
  Forall (fun c => Preprocess.is_space c = true) [32; 9; 10; 160; 8232]
  /\ Preprocess.preprocess_text Preprocess.ascii_isalnum [32; 9; 10; 160; 8232]
     = [].
Proof.
  assert (H : Forall (fun c => Preprocess.is_space c = true)
                [32; 9; 10; 160; 8232])
    by (repeat constructor).
  split; [exact H|].
  apply (preprocess_text_blank Preprocess.ascii_isalnum _ H).
Defined.

Section KeptCharacters.

Variable isalnum : char -> bool.

Lemma kept_sub_ws_from (b : bool) (text : str) :
  List.filter (kept_char isalnum) (Preprocess.sub_ws_from b text)
  = List.filter (kept_char isalnum) text.
Proof.
  revert b. induction text as [|c rest IH]; intros b; [reflexivity|].
  cbn [Preprocess.sub_ws_from List.filter]. unfold kept_char at 2.
  destruct (Preprocess.is_space c) eqn:Hc.
  - rewrite andb_false_r. destruct b; [apply IH|].
    cbn [List.filter]. unfold kept_char at 1.
    change (Preprocess.is_space 32) with true. rewrite andb_false_r. apply IH.
  - cbn [List.filter]. unfold kept_char at 1. rewrite Hc. 
    destruct (Preprocess.is_word isalnum c); cbn; now rewrite IH.
Qed.

Lemma kept_spaces (ws : str) :
  Forall (fun c => Preprocess.is_space c = true) ws ->
  List.filter (kept_char isalnum) ws = [].
Proof.
  induction 1 as [|c rest Hc _ IH]; [reflexivity|].
  cbn [List.filter]. unfold kept_char at 1. rewrite Hc, andb_false_r. exact IH.
Qed.

Lemma kept_lstrip (text : str) :
  List.filter (kept_char isalnum) (Preprocess.lstrip text)
  = List.filter (kept_char isalnum) text.
Proof.
  destruct (lstrip_split text) as [ws [E F]]. rewrite E at 2.
  now rewrite List.filter_app, (kept_spaces ws F).
Qed.

Lemma kept_rstrip (text : str) :
  List.filter (kept_char isalnum) (Preprocess.rstrip text)
  = List.filter (kept_char isalnum) text.
Proof.
  unfold Preprocess.rstrip.
  rewrite List.filter_rev, kept_lstrip, <- List.filter_rev.
  now rewrite rev_involutive.
Qed.

Lemma kept_remove_punct (text : str) :
  List.filter (kept_char isalnum) (Preprocess.remove_punct isalnum text)
  = List.filter (kept_char isalnum) text.
Proof.
  unfold Preprocess.remove_punct. induction text as [|c rest IH]; [reflexivity|].
  cbn [List.filter].
  destruct (Preprocess.is_word isalnum c || Preprocess.is_space c) eqn:Hp.
  - cbn [List.filter]. now rewrite IH.
  - apply orb_false_elim in Hp as [Hw _]. unfold kept_char at 2.
    now rewrite Hw.
Qed.

End KeptCharacters.

(** X6: preprocessing neither drops nor reorders nor adds a word character:
    the word characters of the output that are not whitespace are those of
    the input, in the same order. *)
Theorem preprocess_text_keeps_words (isalnum : char -> bool) (text : str) :
  List.filter (kept_char isalnum) (Preprocess.preprocess_text isalnum text)
  = List.filter (kept_char isalnum) text.
Proof.
  unfold Preprocess.preprocess_text, Preprocess.strip, Preprocess.sub_ws.
  now rewrite kept_remove_punct, kept_rstrip, kept_lstrip, kept_sub_ws_from.
Qed.

(** ** UTF-8 extraction: round trip and bounds *)

(** X8: what [extract_txt_text] returns is a sequence of Unicode scalar
    values (no surrogate, nothing above U+10FFFF) whose UTF-8 encoding is
    the payload, byte for byte; and the encoding of any sequence of scalar
    values is extracted back to that sequence. *)
Theorem extract_txt_text_round_trip (txt_file : Utf8.bytes) (text : str) :
  (Utf8.extract_txt_text txt_file = inr text ->
   Forall Utf8.is_scalar text /\ Utf8.encode text = txt_file)
  /\ (Forall Utf8.is_scalar text ->
      Utf8.extract_txt_text (Utf8.encode text) = inr text).
Proof.
  unfold Utf8.extract_txt_text. split.
  - destruct (Utf8.decode txt_file) as [t|] eqn:E; [|discriminate].
    intros [= <-]. now apply decode_sound.
  - intros F. now rewrite (decode_encode text F).
Qed.

Lemma extract_txt_text_round_trip_witness :
  Utf8.extract_txt_text [104; 195; 169; 226; 130; 172; 240; 159; 152; 128]
    = inr [104; 233; 8364; 128512]
  /\ Utf8.encode [104; 233; 8364; 128512]
     = [104; 195; 169; 226; 130; 172; 240; 159; 152; 128].
Proof.
  split; [reflexivity|].
  apply (extract_txt_text_round_trip
           [104; 195; 169; 226; 130; 172; 240; 159; 152; 128]
           [104; 233; 8364; 128512]).
  reflexivity.
Defined.

Lemma decode_ascii (bs : Utf8.bytes) :
  Forall (fun b => 0 <= b <= 127) bs -> Utf8.decode bs = Some bs.
Proof.
  induction 1 as [|b rest Hb _ IH]; [reflexivity|].
  cbn [Utf8.decode]. unfold Utf8.between.
  destruct (Z.leb_spec 0 b); [|lia]. destruct (Z.leb_spec b 127); [|lia].
  cbn [andb]. now rewrite IH.
Qed.

(** X9: a payload of ASCII bytes only is extracted to the same numbers,
    one character per byte. *)
Theorem extract_txt_text_ascii (txt_file : Utf8.bytes) :
  Forall (fun b => 0 <= b <= 127) txt_file ->
  Utf8.extract_txt_text txt_file = inr txt_file.
Proof.
  intros H. unfold Utf8.extract_txt_text. now rewrite (decode_ascii _ H).
Qed.

Lemma extract_txt_text_ascii_witness :
  Forall (fun b => 0 <= b <= 127) [116; 101; 97]
  /\ Utf8.extract_txt_text [116; 101; 97] = inr [116; 101; 97].
Proof.
  assert (H : Forall (fun b => 0 <= b <= 127) [116; 101; 97])
    by (repeat constructor; lia).
  split; [exact H | apply (extract_txt_text_ascii _ H)].
Defined.

Lemma length_encode_char (c : char) :
  (1 <= length (Utf8.encode_char c) <= 4)%nat.
Proof.
  unfold Utf8.encode_char.
  destruct (c <? 128); [|destruct (c <? 2048); [|destruct (c <? 65536)]];
    cbn; lia.
Qed.

Lemma length_encode (text : str) :
  (length text <= length (Utf8.encode text) <= 4 * length text)%nat.
Proof.
  induction text as [|c rest IH]; [cbn; lia|].
  rewrite encode_cons, length_app. cbn [length].
  pose proof (length_encode_char c). lia.
Qed.

(** X10: the extracted text has at most as many characters as the payload
    has bytes, and at least a quarter as many. *)
Theorem extract_txt_text_length (txt_file : Utf8.bytes) (text : str) :
  Utf8.extract_txt_text txt_file = inr text ->
  (length text <= length txt_file <= 4 * length text)%nat.
Proof.
  unfold Utf8.extract_txt_text.
  destruct (Utf8.decode txt_file) as [t|] eqn:E; [|discriminate].
  intros [= <-]. apply decode_sound in E as [_ <-]. apply length_encode.
Qed.

Lemma extract_txt_text_length_witness :
  Utf8.extract_txt_text [104; 195; 169; 226; 130; 172] = inr [104; 233; 8364]
  /\ (length [104; 233; 8364]%Z <= length [104; 195; 169; 226; 130; 172]%Z
      <= 4 * length [104; 233; 8364]%Z)%nat.
Proof.
  split; [reflexivity|].
  apply (extract_txt_text_length [104; 195; 169; 226; 130; 172]
           [104; 233; 8364]).
  reflexivity.
Defined.

Lemma encode_char_last (c : char) :
  Utf8.is_scalar c ->
  exists init l, Utf8.encode_char c = init ++ [l] /\ 0 <= l <= 191.
Proof.
  unfold Utf8.is_scalar, Utf8.encode_char. intros Hc.
  destruct (Z.ltb_spec c 128); [|destruct (Z.ltb_spec c 2048);
    [|destruct (Z.ltb_spec c 65536)]].
  - exists [], c. split; [reflexivity | lia].
  - exists [192 + c / 64], (128 + c mod 64).
    split; [reflexivity | Z.div_mod_to_equations; lia].
  - exists [224 + c / 4096; 128 + (c / 64) mod 64], (128 + c mod 64).
    split; [reflexivity | Z.div_mod_to_equations; lia].
  - exists [240 + c / 262144; 128 + (c / 4096) mod 64; 128 + (c / 64) mod 64],
      (128 + c mod 64).
    split; [reflexivity | Z.div_mod_to_equations; lia].
Qed.

Lemma encode_app (x y : str) :
  Utf8.encode (x ++ y) = Utf8.encode x ++ Utf8.encode y.
Proof. unfold Utf8.encode. apply flat_map_app. Qed.

(** X11: a payload that ends with the lead byte of a multi-byte character
    (a byte from 0xC2 to 0xF4), as a file cut in the middle of a character
    does, is rejected with [UnicodeDecodeError], whatever precedes it. *)
Theorem extract_txt_text_truncated (txt_file : Utf8.bytes) (lead : Z) :
  194 <= lead <= 244 ->
  Utf8.extract_txt_text (txt_file ++ [lead]) = inl UnicodeDecodeError.
Proof.
  intros Hlead. unfold Utf8.extract_txt_text.
  destruct (Utf8.decode (txt_file ++ [lead])) as [text|] eqn:E; [|reflexivity].
  exfalso. apply decode_sound in E as [F E].
  destruct text as [|c rest] using rev_ind.
  - cbn in E. now destruct txt_file.
  - apply Forall_app in F as [_ Fc]. inversion Fc as [|? ? Hc _]; subst.
    destruct (encode_char_last c Hc) as (init & l & Hl & Hrange).
    rewrite encode_app in E. cbn [Utf8.encode flat_map] in E.
    rewrite app_nil_r, Hl, app_assoc in E.
    apply app_inj_tail in E as [_ ->]. lia.
Qed.

Lemma extract_txt_text_truncated_witness :
  194 <= 226 <= 244
  /\ Utf8.extract_txt_text ([116; 101; 97] ++ [226]) = inl UnicodeDecodeError.
Proof.
  split; [lia | apply (extract_txt_text_truncated [116; 101; 97] 226); lia].
Defined.

(** ** The upload path: documents, identifiers, storage *)

Lemma uuid_draws_app (t t' : list Event) :
  uuid_draws (t ++ t') = (uuid_draws t + uuid_draws t')%nat.
Proof. unfold uuid_draws. now rewrite List.filter_app, length_app. Qed.

Lemma fresh_uuid_run (w : World) (t : list Event) :
  Upload.fresh_uuid w t = (inr (uuid4 w (uuid_draws t)), t ++ [Call_uuid4]).
Proof. reflexivity. Qed.

Lemma make_documents_run (w : World) (filename : str) (text_chunks : list str)
    (documents : list Document) (document_ids : list str) (t : list Event) :
  Upload.make_documents w filename text_chunks documents document_ids t
  = (inr (documents ++ map (fun chunk => mkDocument chunk filename) text_chunks,
          document_ids
          ++ map (uuid4 w) (seq (uuid_draws t) (length text_chunks))),
     t ++ repeat Call_uuid4 (length text_chunks)).
Proof.
  revert documents document_ids t.
  induction text_chunks as [|chunk rest IH]; intros docs ids t.
  - cbn. now rewrite !app_nil_r.
  - cbn [Upload.make_documents]. unfold bind. rewrite fresh_uuid_run, IH.
    rewrite uuid_draws_app. cbn [length seq map repeat].
    replace (uuid_draws t + uuid_draws [Call_uuid4])%nat
      with (S (uuid_draws t)) by (cbn; lia).
    now rewrite <- !app_assoc.
Qed.

(** X12: the loop over the chunks makes one [Document] per chunk, in order,
    with the chunk as content and the file name as source, and draws one
    identifier per chunk, the next ones of the generator in order; it makes
    no other call and cannot fail. *)
Theorem make_documents_one_per_chunk (w : World) (filename : str)
    (text_chunks : list str) (t : list Event) :
  exists documents document_ids,
    Upload.make_documents w filename text_chunks [] [] t
    = (inr (documents, document_ids),
       t ++ repeat Call_uuid4 (length text_chunks))
    /\ map page_content documents = text_chunks
    /\ Forall (fun d => metadata_source d = filename) documents
    /\ document_ids
       = map (uuid4 w) (seq (uuid_draws t) (length text_chunks))
    /\ length document_ids = length documents.
Proof.
  do 2 eexists. rewrite make_documents_run. cbn [app].
  split; [reflexivity|]. split; [|split; [|split]].
  - rewrite map_map. cbn. apply map_id.
  - apply List.Forall_forall. intros d Hd.
    apply in_map_iff in Hd as (c & <- & _). reflexivity.
  - reflexivity.
  - now rewrite !length_map, length_seq.
Qed.

Lemma chunk_text_default (text : str) :
  exists chunks,
    Chunker.chunk_text text Chunker.default_chunk_size = inr chunks
    /\ concat chunks = text.
Proof.
  assert (Hc : 0 < Chunker.default_chunk_size) by reflexivity.
  eexists. split; [now apply chunk_text_windows|].
  apply concat_windows; [cbn; lia | now apply chunk_count_covers].
Qed.

Lemma store_text_with_chunks (w : World) (filename : str)
    (extracted_text : str) (t : list Event) (text_chunks : list str) :
  Chunker.chunk_text (Preprocess.preprocess_text (isalnum w) extracted_text)
    Chunker.default_chunk_size = inr text_chunks ->
  Upload.store_text w filename extracted_text t
  = (match add_documents w
             (map (fun chunk => mkDocument chunk filename) text_chunks)
             (map (uuid4 w) (seq (uuid_draws t) (length text_chunks))) with
     | inl e => inl e
     | inr response =>
         inr (Upload.mkUploadResponse
                (lit "File uploaded, content extracted, and stored in Pinecone successfully!")
                response)
     end,
     t ++ [Call_preprocess_text extracted_text;
           Call_chunk_text
             (Preprocess.preprocess_text (isalnum w) extracted_text)]
       ++ repeat Call_uuid4 (length text_chunks)
       ++ [Call_add_documents
             (map (fun chunk => mkDocument chunk filename) text_chunks)
             (map (uuid4 w) (seq (uuid_draws t) (length text_chunks)))]).
Proof.
  intros Hchunk. unfold Upload.store_text.
  unfold bind at 1. unfold call at 1.
  unfold bind at 1. unfold call at 1. rewrite Hchunk.
  unfold bind at 1. rewrite make_documents_run.
  assert (E : uuid_draws ((t ++ [Call_preprocess_text extracted_text])
                          ++ [Call_chunk_text
                                (Preprocess.preprocess_text (isalnum w)
                                   extracted_text)]) = uuid_draws t)
    by (rewrite !uuid_draws_app; cbn; lia).
  rewrite E. unfold bind, call, ret. rewrite <- !app_assoc. cbn [app].
  now destruct (add_documents w _ _).
Qed.

(** X13: once the text is extracted, the rest of the upload cannot fail
    before the store is called: the text is preprocessed and cut into
    chunks that concatenate back to the preprocessed text, one identifier
    is drawn per chunk, and [add_documents] is called exactly once, last,
    with one document per chunk.  The upload then answers with the
    identifiers the store returned, or fails with the store's exception. *)
Theorem store_text_run (w : World) (filename : str) (extracted_text : str)
    (t : list Event) :
  let preprocessed_text :=
    Preprocess.preprocess_text (isalnum w) extracted_text in
  exists text_chunks,
    Chunker.chunk_text preprocessed_text Chunker.default_chunk_size
      = inr text_chunks
    /\ concat text_chunks = preprocessed_text
    /\ let documents :=
         map (fun chunk => mkDocument chunk filename) text_chunks in
       let document_ids :=
         map (uuid4 w) (seq (uuid_draws t) (length text_chunks)) in
       Upload.store_text w filename extracted_text t
       = (match add_documents w documents document_ids with
          | inl e => inl e
          | inr response =>
              inr (Upload.mkUploadResponse
                     (lit "File uploaded, content extracted, and stored in Pinecone successfully!")
                     response)
          end,
          t ++ [Call_preprocess_text extracted_text;
                Call_chunk_text preprocessed_text]
            ++ repeat Call_uuid4 (length text_chunks)
            ++ [Call_add_documents documents document_ids]).
Proof.
  intros pre. destruct (chunk_text_default pre) as (chunks & Hchunk & Hcat).
  exists chunks. split; [exact Hchunk|]. split; [exact Hcat|].
  intros docs ids. now apply store_text_with_chunks.
Qed.

(** X14: when nothing is left of the text after preprocessing (an empty or
    whitespace-only file, for one), no identifier is drawn and the store is
    still called, with no document and no identifier. *)
Theorem store_text_nothing_left (w : World) (filename : str)
    (extracted_text : str) (t : list Event) :
  Preprocess.preprocess_text (isalnum w) extracted_text = [] ->
  Upload.store_text w filename extracted_text t
  = (match add_documents w [] [] with
     | inl e => inl e
     | inr response =>
         inr (Upload.mkUploadResponse
                (lit "File uploaded, content extracted, and stored in Pinecone successfully!")
                response)
     end,
     t ++ [Call_preprocess_text extracted_text; Call_chunk_text [];
           Call_add_documents [] []]).
Proof.
  intros Hpre.
  rewrite (store_text_with_chunks w filename extracted_text t []);
    rewrite Hpre; reflexivity.
Qed.

Lemma store_text_nothing_left_witness :
  Preprocess.preprocess_text (isalnum Samples.healthy) [32; 10; 46; 9] = []
  /\ Upload.store_text Samples.healthy (lit "blank.txt") [32; 10; 46; 9] []
     = (inr (Upload.mkUploadResponse
               (lit "File uploaded, content extracted, and stored in Pinecone successfully!")
               []),
        [Call_preprocess_text [32; 10; 46; 9]; Call_chunk_text [];
         Call_add_documents [] []]).
Proof.
  split; [reflexivity|].
  apply (store_text_nothing_left Samples.healthy (lit "blank.txt")
           [32; 10; 46; 9] []).
  reflexivity.
Defined.

Lemma endswith_docx_not_pdf (filename : str) :
  endswith filename (lit ".docx") = true ->
  endswith filename (lit ".pdf") = false.
Proof.
  intros H. destruct (endswith filename (lit ".pdf")) eqn:E; [|reflexivity].
  apply endswith_true in H as [p1 H]. apply endswith_true in E as [p2 E].
  apply (f_equal (@rev _)) in H, E. rewrite rev_app_distr in H, E.
  rewrite H in E. discriminate E.
Qed.

(** X15: for a name ending in [.pdf], whatever exception the PDF library
    raises reaches the caller as [ValueError], right after the extraction
    call and before any preprocessing, chunking or storage; when the
    library answers, the text handed on is the pages' texts joined in page
    order. *)
Theorem upload_pdf_extraction (w : World) (filename : str)
    (file_content : Utf8.bytes) (t : list Event) :
  endswith filename (lit ".pdf") = true ->
  (forall e, fitz_pages w file_content = inl e ->
     Upload.upload_file w filename file_content t
     = (inl ValueError,
        t ++ [Call_file_read; Call_extract_pdf_text file_content]))
  /\ (forall pages, fitz_pages w file_content = inr pages ->
        Upload.upload_file w filename file_content t
        = Upload.store_text w filename (concat pages)
            (t ++ [Call_file_read; Call_extract_pdf_text file_content])).
Proof.
  intros Hpdf. rewrite upload_file_unfold. unfold Upload.extract_text.
  rewrite Hpdf. unfold Upload.extract_pdf_text, call. rewrite <- app_assoc.
  cbn [app]. split; intros x ->; reflexivity.
Qed.

Lemma upload_pdf_extraction_witness :
  endswith (lit "a.pdf") (lit ".pdf") = true
  /\ Upload.upload_file Samples.healthy (lit "a.pdf") [37; 80; 68; 70] []
     = Upload.store_text Samples.healthy (lit "a.pdf") (concat [lit "page one"])
         [Call_file_read; Call_extract_pdf_text [37; 80; 68; 70]].
Proof.
  split; [reflexivity|].
  apply (upload_pdf_extraction Samples.healthy (lit "a.pdf") [37; 80; 68; 70] []
           eq_refl).
  reflexivity.
Defined.

(** X16: for a name ending in [.docx], an exception of the DOCX library
    reaches the caller unchanged, before any preprocessing, chunking or
    storage; when the library answers, the text handed on is every
    paragraph followed by a newline, in document order. *)
Theorem upload_docx_extraction (w : World) (filename : str)
    (file_content : Utf8.bytes) (t : list Event) :
  endswith filename (lit ".docx") = true ->
  (forall e, docx_paragraphs w file_content = inl e ->
     Upload.upload_file w filename file_content t
     = (inl e, t ++ [Call_file_read; Call_extract_docx_text file_content]))
  /\ (forall paras, docx_paragraphs w file_content = inr paras ->
        Upload.upload_file w filename file_content t
        = Upload.store_text w filename
            (concat (map (fun p => p ++ [10]) paras))
            (t ++ [Call_file_read; Call_extract_docx_text file_content])).
Proof.
  intros Hdocx. rewrite upload_file_unfold. unfold Upload.extract_text.
  rewrite (endswith_docx_not_pdf _ Hdocx), Hdocx.
  unfold Upload.extract_docx_text, call. rewrite <- app_assoc.
  cbn [app]. split; intros x ->; reflexivity.
Qed.

Lemma upload_docx_extraction_witness :
  endswith (lit "a.docx") (lit ".docx") = true
  /\ Upload.upload_file Samples.healthy (lit "a.docx") [80; 75] []
     = Upload.store_text Samples.healthy (lit "a.docx")
         (concat (map (fun p => p ++ [10]) [lit "first paragraph"]))
         [Call_file_read; Call_extract_docx_text [80; 75]].
Proof.
  split; [reflexivity|].
  apply (upload_docx_extraction Samples.healthy (lit "a.docx") [80; 75] []
           eq_refl).
  reflexivity.
Defined.

(** ** The chat path: turns, history, failures *)

Lemma dict_set_new (d : Chat.dict) (key value : str) :
  ~ In key (Chat.keys d) -> Chat.dict_set d key value = d ++ [(key, value)].
Proof.
  induction d as [|[k v] rest IH]; [reflexivity|].
  cbn [Chat.dict_set]. intros H. case_bool_decide as Hk.
  - exfalso. apply H. now left.
  - cbn. f_equal. apply IH. intros Hin. apply H. now right.
Qed.

(** X17: a message whose text is not yet a key of the history, once
    answered, is recorded as a new last entry: the earlier entries stay in
    place and keep their responses, the length grows by one, and the new
    entry holds the response. *)
Theorem chat_turn_new_message_appends (w : World) (message : str)
    (history_data : Chat.dict) (t t' : list Event) (response : str) :
  ~ In message (Chat.keys history_data) ->
  Chat.answer w message history_data t = (inr response, t') ->
  snd (fst (Chat.chat_turn w message history_data t))
  = history_data ++ [(message, response)].
Proof.
  intros Hnew Hans. unfold Chat.chat_turn. rewrite Hans. unfold call.
  cbn [fst snd]. now apply dict_set_new.
Qed.

Lemma chat_turn_new_message_appends_witness :
  ~ In (lit "Q2") (Chat.keys [(lit "Q1", lit "r1")])
  /\ snd (fst (Chat.chat_turn Samples.healthy (lit "Q2") [(lit "Q1", lit "r1")] []))
     = [(lit "Q1", lit "r1")] ++ [(lit "Q2", lit "answer 179")].
Proof.
  assert (H : ~ In (lit "Q2") (Chat.keys [(lit "Q1", lit "r1")]))
    by (intros [H|[]]; discriminate H).
  split; [exact H|].
  eapply (chat_turn_new_message_appends Samples.healthy (lit "Q2")
            [(lit "Q1", lit "r1")] [] _ _ H).
  vm_compute. reflexivity.
Defined.

Lemma NoDup_keys_dict_set (d : Chat.dict) (key value : str) :
  List.NoDup (Chat.keys d) -> List.NoDup (Chat.keys (Chat.dict_set d key value)).
Proof.
  intros H. destruct (decide (key ∈ Chat.keys d)) as [Hin|Hin].
  - apply list_elem_of_In in Hin. now rewrite keys_dict_set_old.
  - rewrite keys_dict_set_new by (now rewrite <- list_elem_of_In).
    apply NoDup_ListNoDup. apply NoDup_ListNoDup in H.
    apply (proj2 (NoDup_app (Chat.keys d) [key])). split; [exact H|]. split.
    + intros x Hx Hx'. apply list_elem_of_singleton in Hx'. now subst.
    + apply NoDup_singleton.
Qed.

(** X18: the history never holds two entries for the same question text:
    started from a history without duplicate keys, the loop ends, after any
    frames and whatever the collaborators do, with a history without
    duplicate keys. *)
Theorem chat_loop_keys_unique (w : World) (frames : list str)
    (history_data : Chat.dict) (t : list Event) :
  List.NoDup (Chat.keys history_data) ->
  List.NoDup (Chat.keys (snd (fst (Chat.chat_loop w frames history_data t)))).
Proof.
  revert history_data t. induction frames as [|m rest IH]; intros h t Hh.
  - exact Hh.
  - cbn [Chat.chat_loop]. unfold Chat.chat_turn.
    destruct (Chat.answer w m h _) as [[e|r] t'].
    + exact Hh.
    + unfold call. destruct (send_text w r) as [e|[]].
      * now apply NoDup_keys_dict_set.
      * apply IH. now apply NoDup_keys_dict_set.
Qed.

Lemma chat_loop_keys_unique_witness :
  List.NoDup (Chat.keys [])
  /\ List.NoDup
       (Chat.keys (snd (fst (Chat.chat_loop Samples.healthy
                               [lit "Q1"; lit "Q2"; lit "Q1"] [] [])))).
Proof.
  split; [constructor|].
  apply (chat_loop_keys_unique Samples.healthy [lit "Q1"; lit "Q2"; lit "Q1"]
           [] []).
  constructor.
Defined.

(** X19: when the search, the model and the socket all answer, a turn makes
    exactly three calls in this order: the similarity search for the
    message with [k = 2], the chat model on the prompt built from the search
    results, the history as it was before the turn and the message, and the
    send of the model's response; the history then maps the message to that
    response. *)
Theorem chat_turn_success (w : World) (message : str)
    (history_data : Chat.dict) (t : list Event)
    (results : list Document) (response : str) :
  similarity_search w message 2 = inr results ->
  chat_client w (Chat.format_prompt (Chat.build_context results)
                   (Chat.build_history history_data) message)
    = inr response ->
  send_text w response = inr tt ->
  Chat.chat_turn w message history_data t
  = ((inr tt, Chat.dict_set history_data message response),
     t ++ [Call_similarity_search message 2;
           Call_chat_client
             (Chat.format_prompt (Chat.build_context results)
                (Chat.build_history history_data) message);
           Call_send_text response]).
Proof.
  intros Hs Hc Hsend. unfold Chat.chat_turn.
  rewrite (answer_search_ok w _ _ _ _ Hs), llm_chat_chain_run, Hc.
  unfold call. rewrite Hsend, <- !app_assoc. reflexivity.
Qed.

Lemma chat_turn_success_witness :
  similarity_search Samples.healthy (lit "hi") 2
    = inr [mkDocument (lit "tea is a drink") (lit "tea.txt")]
  /\ Chat.chat_turn Samples.healthy (lit "hi") [] []
     = ((inr tt, Chat.dict_set [] (lit "hi") (lit "answer 148")),
        [Call_similarity_search (lit "hi") 2;
         Call_chat_client
           (Chat.format_prompt
              (Chat.build_context
                 [mkDocument (lit "tea is a drink") (lit "tea.txt")])
              (Chat.build_history []) (lit "hi"));
         Call_send_text (lit "answer 148")]).
Proof.
  split; [reflexivity|].
  apply (chat_turn_success Samples.healthy (lit "hi") [] []
           [mkDocument (lit "tea is a drink") (lit "tea.txt")]
           (lit "answer 148")); reflexivity.
Defined.

(** X20: when the chat model raises, the exception leaves the turn right
    after the model call: nothing is sent, the history is the one before
    the turn, and the loop ends with that exception, the frames still
    waiting unread. *)
Theorem chat_turn_model_failure_escapes (w : World) (message : str)
    (rest : list str) (history_data : Chat.dict) (t : list Event)
    (results : list Document) (e : Exn) :
  similarity_search w message 2 = inr results ->
  chat_client w (Chat.format_prompt (Chat.build_context results)
                   (Chat.build_history history_data) message)
    = inl e ->
  Chat.chat_loop w (message :: rest) history_data t
  = ((e, history_data),
     t ++ [Call_receive_text message;
           Call_similarity_search message 2;
           Call_chat_client
             (Chat.format_prompt (Chat.build_context results)
                (Chat.build_history history_data) message)]).
Proof.
  intros Hs Hc. cbn [Chat.chat_loop]. unfold Chat.chat_turn.
  rewrite (answer_search_ok w _ _ _ _ Hs), llm_chat_chain_run, Hc.
  now rewrite <- !app_assoc.
Qed.

Lemma chat_turn_model_failure_escapes_witness :
  similarity_search model_down (lit "hi") 2
    = inr [mkDocument (lit "tea is a drink") (lit "tea.txt")]
  /\ Chat.chat_loop model_down [lit "hi"; lit "again"] [] []
     = ((BackendError 429, []),
        [Call_receive_text (lit "hi");
         Call_similarity_search (lit "hi") 2;
         Call_chat_client
           (Chat.format_prompt
              (Chat.build_context
                 [mkDocument (lit "tea is a drink") (lit "tea.txt")])
              (Chat.build_history []) (lit "hi"))]).
Proof.
  split; [reflexivity|].
  apply (chat_turn_model_failure_escapes model_down (lit "hi")
           [lit "again"] [] []
           [mkDocument (lit "tea is a drink") (lit "tea.txt")]
           (BackendError 429)); reflexivity.
Defined.


Lemma sent_texts_app (t t' : list Event) :
  sent_texts (t ++ t') = sent_texts t ++ sent_texts t'.
Proof. unfold sent_texts. apply flat_map_app. Qed.

Lemma chat_client_calls_app (t t' : list Event) :
  Chat.chat_client_calls (t ++ t')
  = (Chat.chat_client_calls t + Chat.chat_client_calls t')%nat.
Proof.
  unfold Chat.chat_client_calls. now rewrite List.filter_app, length_app.
Qed.

Lemma chat_turn_answers_trace (w : World) (message : str)
    (history_data : Chat.dict) (t : list Event) :
  Chat.always_answers w ->
  exists response evs,
    Chat.chat_turn w message history_data t
    = ((inr tt, Chat.dict_set history_data message response), t ++ evs)
    /\ sent_texts evs = [response]
    /\ Chat.chat_client_calls evs = 1%nat.
Proof.
  intros (Hs & Hc & Hsend). unfold Chat.chat_turn.
  destruct (Hs message 2) as [results Hr].
  rewrite (answer_search_ok w _ _ _ _ Hr), llm_chat_chain_run.
  destruct (Hc (Chat.format_prompt (Chat.build_context results)
                  (Chat.build_history history_data) message)) as [resp Hresp].
  rewrite Hresp. unfold call. rewrite Hsend, <- !app_assoc.
  do 2 eexists. split; [reflexivity|]. split; reflexivity.
Qed.

(** X21: when every collaborator answers, the handler serves every frame
    the client sent before it disconnected: per frame exactly one call to
    the chat model and exactly one response sent, and the disconnect that
    ends the loop is the handled one, so no exception escapes. *)
Theorem chat_serves_every_frame (w : World) (frames : list str)
    (t : list Event) :
  Chat.always_answers w ->
  exists history_data t',
    Chat.chat w frames t = ((None, history_data), t')
    /\ length (sent_texts t') = (length (sent_texts t) + length frames)%nat
    /\ Chat.chat_client_calls t'
       = (Chat.chat_client_calls t + length frames)%nat.
Proof.
  intros Hw. unfold Chat.chat.
  assert (Hloop : forall frames h t0,
    exists h' t',
      Chat.chat_loop w frames h t0 = ((WebSocketDisconnect, h'), t')
      /\ length (sent_texts t') = (length (sent_texts t0) + length frames)%nat
      /\ Chat.chat_client_calls t'
         = (Chat.chat_client_calls t0 + length frames)%nat).
  { clear frames t. induction frames as [|m rest IH]; intros h t0.
    - do 2 eexists. split; [reflexivity|]. cbn. lia.
    - cbn [Chat.chat_loop].
      destruct (chat_turn_answers_trace w m h (t0 ++ [Call_receive_text m]) Hw)
        as (r & evs & -> & Hsent & Hcalls).
      destruct (IH (Chat.dict_set h m r) ((t0 ++ [Call_receive_text m]) ++ evs))
        as (h' & t' & -> & Hs' & Hc').
      do 2 eexists. split; [reflexivity|].
      rewrite Hs', Hc', !sent_texts_app, !chat_client_calls_app, !length_app,
        Hsent, Hcalls.
      cbn. lia. }
  destruct (Hloop frames [] (t ++ [Call_accept])) as (h' & t' & -> & Hs & Hc).
  exists h', t'. split; [reflexivity|].
  rewrite Hs, Hc, sent_texts_app, chat_client_calls_app, length_app.
  cbn. lia.
Qed.

Lemma chat_serves_every_frame_witness :
  Chat.always_answers Samples.healthy
  /\ exists history_data t',
       Chat.chat Samples.healthy [lit "Q1"; lit "Q2"] []
         = ((None, history_data), t')
       /\ length (sent_texts t') = (length (sent_texts []) + 2)%nat
       /\ Chat.chat_client_calls t' = (Chat.chat_client_calls [] + 2)%nat.
Proof.
  split; [exact healthy_always_answers|].
  apply (chat_serves_every_frame Samples.healthy [lit "Q1"; lit "Q2"] []
           healthy_always_answers).
Defined.

Lemma enumerate_from_snoc {A : Type} (a : nat) (xs : list A) (x : A) :
  combine (seq a (length (xs ++ [x]))) (xs ++ [x])
  = combine (seq a (length xs)) xs ++ [((a + length xs)%nat, x)].
Proof.
  revert a. induction xs as [|y ys IH]; intros a.
  - cbn. now rewrite Nat.add_0_r.
  - cbn [length seq combine app]. rewrite IH.
    now replace (S a + length ys)%nat with (a + S (length ys))%nat by lia.
Qed.

(** X22: recording a question that is new only appends to the history text
    of the next prompt: the text for the earlier entries is unchanged, and
    the new entry comes last, numbered one more than the number of entries
    before it. *)
Theorem build_history_new_entry (history_data : Chat.dict)
    (question response : str) :
  ~ In question (Chat.keys history_data) ->
  Chat.build_history (Chat.dict_set history_data question response)
  = Chat.build_history history_data
    ++ lit "(" ++ Chat.str_of_nat (S (length history_data)) ++ lit ")" ++ [10]
    ++ lit "Question: " ++ question ++ [10]
    ++ lit "Response: " ++ response ++ [10; 10].
Proof.
  intros Hnew. rewrite (dict_set_new _ _ _ Hnew).
  unfold Chat.build_history, Chat.enumerate1.
  rewrite enumerate_from_snoc, map_app, concat_app. cbn [map concat].
  now rewrite app_nil_r.
Qed.

Lemma build_history_new_entry_witness :
  ~ In (lit "Q2") (Chat.keys [(lit "Q1", lit "r1")])
  /\ Chat.build_history (Chat.dict_set [(lit "Q1", lit "r1")] (lit "Q2") (lit "r2"))
     = Chat.build_history [(lit "Q1", lit "r1")]
       ++ lit "(" ++ Chat.str_of_nat (S (length [(lit "Q1", lit "r1")]))
       ++ lit ")" ++ [10]
       ++ lit "Question: " ++ lit "Q2" ++ [10]
       ++ lit "Response: " ++ lit "r2" ++ [10; 10].
Proof.
  assert (H : ~ In (lit "Q2") (Chat.keys [(lit "Q1", lit "r1")]))
    by (intros [H|[]]; discriminate H).
  split; [exact H|].
  apply (build_history_new_entry [(lit "Q1", lit "r1")] (lit "Q2") (lit "r2") H).
Defined.

(** ** The history of a session *)

Lemma answer_trace_unsent (w : World) (message : str)
    (history_data : Chat.dict) (t : list Event) :
  exists evs,
    snd (Chat.answer w message history_data t) = t ++ evs
    /\ sent_texts evs = [].
Proof.
  destruct (similarity_search w message 2) as [e|results] eqn:E.
  - rewrite (answer_search_raises w _ _ _ _ E). now eexists.
  - rewrite (answer_search_ok w _ _ _ _ E), llm_chat_chain_run.
    cbn [snd]. rewrite <- app_assoc. now eexists.
Qed.

Lemma chat_loop_records (w : World) (frames : list str)
    (history_data : Chat.dict) (t : list Event) :
  exists evs,
    snd (Chat.chat_loop w frames history_data t) = t ++ evs
    /\ (length (sent_texts evs) <= length frames)%nat
    /\ snd (fst (Chat.chat_loop w frames history_data t))
       = record_turns history_data (combine frames (sent_texts evs)).
Proof.
  revert history_data t. induction frames as [|m rest IH]; intros h t.
  - exists []. cbn. now rewrite app_nil_r.
  - cbn [Chat.chat_loop]. unfold Chat.chat_turn.
    destruct (answer_trace_unsent w m h (t ++ [Call_receive_text m]))
      as (aevs & Htr & Hunsent).
    destruct (Chat.answer w m h (t ++ [Call_receive_text m]))
      as [[e|r] t1]; cbn [snd] in Htr; subst t1.
    + exists ([Call_receive_text m] ++ aevs).
      rewrite sent_texts_app, Hunsent, app_assoc. cbn.
      split; [reflexivity|]. split; [lia | reflexivity].
    + unfold call. destruct (send_text w r) as [e|[]].
      * exists ([Call_receive_text m] ++ aevs ++ [Call_send_text r]).
        rewrite !sent_texts_app, Hunsent, !app_assoc. cbn.
        split; [reflexivity|]. split; [lia|]. now destruct rest.
      * destruct (IH (Chat.dict_set h m r)
                    (((t ++ [Call_receive_text m]) ++ aevs)
                       ++ [Call_send_text r]))
          as (evs & -> & Hlen & ->).
        exists ([Call_receive_text m] ++ aevs ++ [Call_send_text r] ++ evs).
        rewrite !sent_texts_app, Hunsent, !app_assoc. cbn.
        split; [reflexivity|]. split; [lia | reflexivity].
Qed.

Lemma chat_loop_answers_all (w : World) (frames : list str)
    (history_data : Chat.dict) (t : list Event) :
  Chat.always_answers w ->
  exists evs,
    snd (Chat.chat_loop w frames history_data t) = t ++ evs
    /\ length (sent_texts evs) = length frames.
Proof.
  intros Hw. revert history_data t.
  induction frames as [|m rest IH]; intros h t.
  - exists []. cbn. now rewrite app_nil_r.
  - cbn [Chat.chat_loop].
    destruct (chat_turn_answers_trace w m h (t ++ [Call_receive_text m]) Hw)
      as (r & tevs & -> & Hsent & _).
    destruct (IH (Chat.dict_set h m r) ((t ++ [Call_receive_text m]) ++ tevs))
      as (evs & -> & Hlen).
    exists ([Call_receive_text m] ++ tevs ++ evs).
    rewrite !sent_texts_app, Hsent, !app_assoc, length_app, Hlen.
    split; reflexivity.
Qed.

Lemma keys_record_turns (d : Chat.dict) (turns : list (str * str)) :
  Chat.keys (record_turns d turns)
  = Chat.keys d ++ Chat.first_occurrences (Chat.keys d) (map fst turns).
Proof.
  revert d. induction turns as [|[m r] turns IH]; intros d.
  - cbn. now rewrite app_nil_r.
  - cbn [record_turns fold_left map fst snd].
    fold (record_turns (Chat.dict_set d m r) turns).
    rewrite IH. symmetry. apply first_occurrences_step.
Qed.

Lemma map_fst_combine {A B : Type} (xs : list A) (ys : list B) :
  (length ys <= length xs)%nat ->
  map fst (combine xs ys) = firstn (length ys) xs.
Proof.
  revert ys. induction xs as [|x xs IH]; intros [|y ys] H;
    cbn in *; try reflexivity; try lia.
  f_equal. apply IH. lia.
Qed.

Lemma added_events (t evs : list Event) : skipn (length t) (t ++ evs) = evs.
Proof. rewrite skipn_app, skipn_all, Nat.sub_diag. reflexivity. Qed.

(** C1, as the code has it: with [responses] the responses the handler
    handed to the socket during the run, one per answered turn, the history
    after the run is what the assignments [history_data[message] = response]
    of those turns, in order, make of the history before.  So it holds one
    entry per distinct message text of the answered turns, in the order of
    first arrival, a repeated text keeping its place and taking the latest
    response; every question of the history before is still a key, the
    length never shrinks, and no configured maximum bounds it.  When every
    collaborator answers, every frame is an answered turn. *)
Theorem history_keeps_every_distinct_message (w : World) (frames : list str)
    (history_data : Chat.dict) (t : list Event) :
  let history_data' := snd (fst (Chat.chat_loop w frames history_data t)) in
  let responses :=
    sent_texts (skipn (length t) (snd (Chat.chat_loop w frames history_data t))) in
  (length responses <= length frames)%nat
  /\ history_data' = record_turns history_data (combine frames responses)
  /\ Chat.keys history_data'
     = Chat.keys history_data
       ++ Chat.first_occurrences (Chat.keys history_data)
            (firstn (length responses) frames)
  /\ (forall question,
        In question (Chat.keys history_data) ->
        In question (Chat.keys history_data'))
  /\ (length history_data <= length history_data')%nat
  /\ (Chat.always_answers w -> length responses = length frames).
Proof.
  intros h' responses. subst h' responses.
  destruct (chat_loop_records w frames history_data t) as (evs & Htr & Hlen & Hh).
  rewrite Htr, added_events, Hh.
  assert (Hkeys : Chat.keys (record_turns history_data
                               (combine frames (sent_texts evs)))
                  = Chat.keys history_data
                    ++ Chat.first_occurrences (Chat.keys history_data)
                         (firstn (length (sent_texts evs)) frames))
    by (now rewrite keys_record_turns, map_fst_combine).
  split; [exact Hlen|]. split; [reflexivity|]. split; [exact Hkeys|].
  split; [|split].
  - intros q Hq. rewrite Hkeys. apply in_or_app. now left.
  - apply (f_equal (@length _)) in Hkeys. unfold Chat.keys in Hkeys at 1 2.
    rewrite length_app, !length_map in Hkeys. lia.
  - intros Hw.
    destruct (chat_loop_answers_all w frames history_data t Hw)
      as (evs' & Htr' & Hlen').
    rewrite Htr in Htr'. apply app_inv_head in Htr'. now subst evs'.
Qed.

Lemma history_keeps_every_distinct_message_witness :
  Chat.always_answers Samples.healthy
  /\ snd (fst (Chat.chat_loop Samples.healthy
                 [lit "Q1"; lit "Q2"; lit "Q1"; lit "Q3"] [] []))
     = record_turns []
         (combine [lit "Q1"; lit "Q2"; lit "Q1"; lit "Q3"]
            (sent_texts
               (skipn (length (@nil Event))
                  (snd (Chat.chat_loop Samples.healthy
                          [lit "Q1"; lit "Q2"; lit "Q1"; lit "Q3"] [] [])))))
  /\ length (sent_texts
               (skipn (length (@nil Event))
                  (snd (Chat.chat_loop Samples.healthy
                          [lit "Q1"; lit "Q2"; lit "Q1"; lit "Q3"] [] []))))
     = length [lit "Q1"; lit "Q2"; lit "Q1"; lit "Q3"].
Proof.
  split; [exact healthy_always_answers|].
  destruct (history_keeps_every_distinct_message Samples.healthy
              [lit "Q1"; lit "Q2"; lit "Q1"; lit "Q3"] [] [])
    as (_ & Hrec & _ & _ & _ & Hall).
  split; [exact Hrec | exact (Hall healthy_always_answers)].
Defined.

(** ** The connection registry, [services.WebsocketManager] *)

Lemma In_list_remove (x y : nat) (l : list nat) :
  List.NoDup l -> (In x (Server.list_remove y l) <-> In x l /\ x <> y).
Proof.
  induction 1 as [|z l Hz Hl IH]; [cbn; tauto|].
  cbn [Server.list_remove]. case_bool_decide as Hzy.
  - subst z. cbn. split.
    + intros Hx. split; [now right | intros ->; contradiction].
    + intros [[<-|Hx] Hne]; [contradiction | exact Hx].
  - cbn. rewrite IH. split.
    + intros [<-|[Hx Hne]]; [split; [now left | exact Hzy] | split; [now right | exact Hne]].
    + intros [[<-|Hx] Hne]; [now left | right; now split].
Qed.

Lemma NoDup_list_remove (y : nat) (l : list nat) :
  List.NoDup l -> List.NoDup (Server.list_remove y l).
Proof.
  induction 1 as [|z l Hz Hl IH]; [constructor|].
  cbn [Server.list_remove]. case_bool_decide as Hzy; [exact Hl|].
  constructor; [|exact IH].
  intros Hin. apply (In_list_remove z y l Hl) in Hin as [Hin _]. contradiction.
Qed.

Lemma list_remove_snoc (ws : nat) (l : list nat) :
  ~ In ws l -> Server.list_remove ws (l ++ [ws]) = l.
Proof.
  induction l as [|z l IH]; intros H; cbn [app Server.list_remove].
  - now rewrite bool_decide_eq_true_2.
  - rewrite bool_decide_eq_false_2 by (intros ->; apply H; now left).
    f_equal. apply IH. intros Hin. apply H. now right.
Qed.

Lemma NoDup_snoc (ws : nat) (l : list nat) :
  List.NoDup l -> ~ In ws l -> List.NoDup (l ++ [ws]).
Proof.
  intros Hl Hws. apply NoDup_ListNoDup. apply NoDup_ListNoDup in Hl.
  apply (proj2 (NoDup_app l [ws])). split; [exact Hl|]. split.
  - intros x Hx Hx'. apply list_elem_of_singleton in Hx'. subst.
    now apply Hws, list_elem_of_In.
  - apply NoDup_singleton.
Qed.

(** X23: registering a socket that is not in the list and then removing it
    gives the list back; removing a socket that is not in the list raises
    [ValueError]. *)
Theorem manager_connect_disconnect (ws : nat) (active_connections : list nat) :
  ~ In ws active_connections ->
  Manager.disconnect ws (Manager.connect ws active_connections)
    = inr active_connections
  /\ Manager.disconnect ws active_connections = inl ValueError.
Proof.
  intros H. unfold Manager.disconnect, Manager.connect. split.
  - rewrite bool_decide_eq_true_2
      by (apply list_elem_of_In, in_or_app; right; now left).
    now rewrite list_remove_snoc.
  - rewrite bool_decide_eq_false_2; [reflexivity|].
    now rewrite list_elem_of_In.
Qed.

Lemma manager_connect_disconnect_witness :
  ~ In 3%nat [1%nat; 2%nat]
  /\ Manager.disconnect 3 (Manager.connect 3 [1%nat; 2%nat])
     = inr [1%nat; 2%nat].
Proof.
  assert (H : ~ In 3%nat [1%nat; 2%nat])
    by (intros [H|[H|[]]]; discriminate H).
  split; [exact H | apply (manager_connect_disconnect 3 [1%nat; 2%nat] H)].
Defined.

(** X24: [broadcast] calls [send_text] on the connections in list order
    and stops at the first one that raises: when the send succeeds on every
    connection before [failing] and raises there, the exception escapes and
    no later connection is sent anything; when it succeeds everywhere, all
    connections were sent the message. *)
Theorem broadcast_stops_at_first_failure (send : nat -> str -> result unit)
    (message : str) (before later : list nat) (failing : nat) (e : Exn) :
  Forall (fun c => send c message = inr tt) before ->
  (send failing message = inl e ->
   Manager.broadcast send message (before ++ failing :: later)
   = (inl e, before ++ [failing]))
  /\ Manager.broadcast send message before = (inr tt, before).
Proof.
  induction 1 as [|c rest Hc _ [IHfail IHok]]; cbn [app Manager.broadcast].
  - split; [now intros -> | reflexivity].
  - rewrite Hc. split.
    + intros Hf. now rewrite (IHfail Hf).
    + now rewrite IHok.
Qed.

Lemma broadcast_stops_at_first_failure_witness :
  Forall (fun c => (fun ws _ => if (ws =? 2)%nat then inl WebSocketDisconnect
                                else inr tt) c (lit "hello") = inr tt)
         [1%nat]
  /\ Manager.broadcast
       (fun ws _ => if (ws =? 2)%nat then inl WebSocketDisconnect else inr tt)
       (lit "hello") ([1%nat] ++ 2%nat :: [3%nat])
     = (inl WebSocketDisconnect, [1%nat] ++ [2%nat]).
Proof.
  assert (H : Forall (fun c => (fun ws _ =>
                 if (ws =? 2)%nat then inl WebSocketDisconnect else inr tt)
                 c (lit "hello") = inr tt) [1%nat])
    by (repeat constructor).
  split; [exact H|].
  apply (broadcast_stops_at_first_failure _ (lit "hello") [1%nat] [3%nat] 2%nat
           WebSocketDisconnect H).
  reflexivity.
Defined.

Lemma registry_update (s : Server.State) (ws : nat) (c' : Server.Conn)
    (active' : list nat) :
  registry_inv s ->
  active'
  = (if match Server.conns s !! ws with
        | Some c => Manager.registered (Server.pc c)
        | None => false
        end
     then if Manager.registered (Server.pc c')
          then Server.active_connections s
          else Server.list_remove ws (Server.active_connections s)
     else if Manager.registered (Server.pc c')
          then Server.active_connections s ++ [ws]
          else Server.active_connections s) ->
  registry_inv (Server.mkState (<[ws := c']> (Server.conns s)) active').
Proof.
  intros [Hnd Hiff] ->. unfold registry_inv. cbn [Server.conns Server.active_connections].
  assert (Hold : In ws (Server.active_connections s)
                 <-> match Server.conns s !! ws with
                     | Some c => Manager.registered (Server.pc c)
                     | None => false
                     end = true).
  { rewrite Hiff. destruct (Server.conns s !! ws) as [c|].
    - split; [intros (c0 & [= <-] & H); exact H | intros H; eauto].
    - split; [intros (c0 & [=] & _) | discriminate]. }
  destruct (match Server.conns s !! ws with
            | Some c => Manager.registered (Server.pc c)
            | None => false
            end) eqn:Eold;
    destruct (Manager.registered (Server.pc c')) eqn:Enew.
  - split; [exact Hnd|]. intros x. destruct (decide (x = ws)) as [->|Hne].
    + rewrite lookup_insert_eq. split; [eauto | intros _; now apply Hold].
    + rewrite lookup_insert_ne by congruence. apply Hiff.
  - split; [now apply NoDup_list_remove|]. intros x.
    rewrite (In_list_remove x ws _ Hnd).
    destruct (decide (x = ws)) as [->|Hne].
    + rewrite lookup_insert_eq. split; [intros [_ H]; congruence|].
      intros (c0 & [= <-] & H). congruence.
    + rewrite lookup_insert_ne by congruence. rewrite Hiff. tauto.
  - assert (Hnot : ~ In ws (Server.active_connections s))
      by (rewrite Hold; discriminate).
    split; [now apply NoDup_snoc|]. intros x. rewrite in_app_iff.
    destruct (decide (x = ws)) as [->|Hne].
    + rewrite lookup_insert_eq. split; [eauto | intros _; right; now left].
    + rewrite lookup_insert_ne by congruence. rewrite Hiff. cbn.
      split; [intros [H|[H|[]]]; [exact H | congruence] | now left].
  - assert (Hnot : ~ In ws (Server.active_connections s))
      by (rewrite Hold; discriminate).
    split; [exact Hnd|]. intros x. destruct (decide (x = ws)) as [->|Hne].
    + rewrite lookup_insert_eq. split; [contradiction|].
      intros (c0 & [= <-] & H). congruence.
    + rewrite lookup_insert_ne by congruence. apply Hiff.
Qed.

Lemma step_preserves_registry (w : World) (s s' : Server.State)
    (l : Server.Label) :
  Server.step w s l s' -> registry_inv s -> registry_inv s'.
Proof.
  intros Hstep Hinv.
  destruct Hstep as
    [ s ws Hnone
    | s ws c Hc Hpc
    | s ws c message Hc
    | s ws c message rest response t' Hc Hpc Hin Hans
    | s ws c message rest e t' Hc Hpc Hin Hans
    | s ws c message response Hc Hpc Hsend
    | s ws c message response e Hc Hpc Hsend
    | s ws c Hc Hpc Hin ];
    apply registry_update; try exact Hinv;
    rewrite ?Hnone, ?Hc, ?Hpc; cbn [Server.pc Manager.registered];
    try reflexivity.
  - now destruct (Manager.registered (Server.pc c)).
  - now destruct e.
  - now destruct e.
Qed.

Lemma reachable_registry (w : World) (s : Server.State) :
  Server.reachable w s -> registry_inv s.
Proof.
  induction 1 as [|s l s' _ IH Hstep].
  - split; [constructor|]. intros ws. cbn. split; [intros []|].
    intros (c & H & _). now rewrite lookup_empty in H.
  - now apply (step_preserves_registry w s s' l).
Qed.

(** X25: in every reachable state of the server no socket stands twice in
    [active_connections]; a socket stands there exactly when its handler
    was accepted and has not left through the handled disconnect.  So a
    handler ended by a client disconnect is unregistered, and one ended by
    any other exception stays registered for good. *)
Theorem registry_matches_handlers (w : World) (s : Server.State) (ws : nat)
    (c : Server.Conn) :
  Server.reachable w s ->
  Server.conns s !! ws = Some c ->
  List.NoDup (Server.active_connections s)
  /\ (In ws (Server.active_connections s)
      <-> Manager.registered (Server.pc c) = true)
  /\ (Server.pc c = Server.Closed None ->
      ~ In ws (Server.active_connections s))
  /\ (forall e, Server.pc c = Server.Closed (Some e) ->
      In ws (Server.active_connections s)).
Proof.
  intros Hr Hc. destruct (reachable_registry w s Hr) as [Hnd Hiff].
  assert (H : In ws (Server.active_connections s)
              <-> Manager.registered (Server.pc c) = true).
  { rewrite Hiff. split; [|eauto].
    intros (c0 & Hc0 & H). rewrite Hc in Hc0. now injection Hc0 as <-. }
  split; [exact Hnd|]. split; [exact H|]. split.
  - intros Hpc. rewrite H, Hpc. discriminate.
  - intros e Hpc. rewrite H, Hpc. reflexivity.
Qed.

(** X26: whenever a handler is inside its loop, its socket is in the
    registry, exactly once: the [disconnect] of the [except] clause finds
    it, never raises [ValueError], and leaves no entry of that socket
    behind. *)
Theorem disconnect_never_raises (w : World) (s : Server.State) (ws : nat)
    (c : Server.Conn) :
  Server.reachable w s ->
  Server.conns s !! ws = Some c ->
  Server.pc c = Server.AwaitReceive
  \/ (exists message response, Server.pc c = Server.AwaitSend message response) ->
  Manager.disconnect ws (Server.active_connections s)
    = inr (Server.list_remove ws (Server.active_connections s))
  /\ ~ In ws (Server.list_remove ws (Server.active_connections s)).
Proof.
  intros Hr Hc Hpc. destruct (reachable_registry w s Hr) as [Hnd Hiff].
  assert (Hin : In ws (Server.active_connections s)).
  { apply Hiff. exists c. split; [exact Hc|].
    destruct Hpc as [->|(m & r & ->)]; reflexivity. }
  split.
  - unfold Manager.disconnect.
    now rewrite bool_decide_eq_true_2 by now apply list_elem_of_In.
  - rewrite (In_list_remove ws ws _ Hnd). tauto.
Qed.

Lemma registry_matches_handlers_witness :
  Server.reachable Samples.healthy Samples.busy
  /\ Server.conns Samples.busy !! 1%nat = Some Samples.busy_conn
  /\ List.NoDup (Server.active_connections Samples.busy)
  /\ (In 1%nat (Server.active_connections Samples.busy)
      <-> Manager.registered (Server.pc Samples.busy_conn) = true).
Proof.
  split; [exact busy_reachable|]. split; [reflexivity|].
  destruct (registry_matches_handlers Samples.healthy Samples.busy 1%nat
              Samples.busy_conn busy_reachable eq_refl) as (Hnd & Hiff & _).
  split; assumption.
Defined.

Lemma disconnect_never_raises_witness :
  Server.reachable Samples.healthy Samples.busy
  /\ Server.conns Samples.busy !! 1%nat = Some Samples.busy_conn
  /\ Manager.disconnect 1 (Server.active_connections Samples.busy)
     = inr (Server.list_remove 1 (Server.active_connections Samples.busy)).
Proof.
  split; [exact busy_reachable|]. split; [reflexivity|].
  apply (disconnect_never_raises Samples.healthy Samples.busy 1%nat
           Samples.busy_conn busy_reachable eq_refl).
  right. do 2 eexists. reflexivity.
Defined.

(** ** Start-up: [PineconeService.initialize_pinecone], [app.startup_event] *)

Lemma slept_app (t t' : list Pinecone.Call) :
  Pinecone.slept (t ++ t') = Pinecone.slept t + Pinecone.slept t'.
Proof.
  unfold Pinecone.slept. induction t as [|c t IH]; [reflexivity|].
  cbn [app fold_right]. destruct c; rewrite IH; lia.
Qed.

Lemma wait_ready_after (svc : Pinecone.Service) (name : str)
    (k fuel polled : nat) (t : list Pinecone.Call) :
  (forall n, (n < k)%nat -> Pinecone.describe_ready svc (polled + n) = inr false) ->
  Pinecone.describe_ready svc (polled + k) = inr true ->
  (k < fuel)%nat ->
  exists t',
    Pinecone.wait_ready svc name fuel polled t = Some (inr tt, t')
    /\ Pinecone.slept t' = Pinecone.slept t + Z.of_nat k.
Proof.
  revert fuel polled t. induction k as [|k IH]; intros fuel polled t Hno Hyes Hf.
  - destruct fuel as [|fuel]; [lia|]. cbn [Pinecone.wait_ready].
    rewrite Nat.add_0_r in Hyes. rewrite Hyes. eexists. split; [reflexivity|].
    rewrite slept_app. cbn. lia.
  - destruct fuel as [|fuel]; [lia|]. cbn [Pinecone.wait_ready].
    pose proof (Hno 0%nat ltac:(lia)) as H0. rewrite Nat.add_0_r in H0.
    rewrite H0.
    destruct (IH fuel (S polled)
                (t ++ [Pinecone.Describe_index name; Pinecone.Sleep 1]))
      as (t' & -> & Hs).
    + intros n Hn. replace (S polled + n)%nat with (polled + S n)%nat by lia.
      apply Hno. lia.
    + now replace (S polled + k)%nat with (polled + S k)%nat by lia.
    + lia.
    + eexists. split; [reflexivity|]. rewrite Hs, slept_app. cbn. lia.
Qed.

(** X27: the waiting loop ends as soon as a poll reports the index ready:
    when the first [k] polls report not ready and the next one ready, the
    loop returns, for every bound above [k], after exactly [k] sleeps of one
    second. *)
Theorem wait_ready_sleeps_until_ready (svc : Pinecone.Service) (name : str)
    (k fuel : nat) (t : list Pinecone.Call) :
  (forall n, (n < k)%nat -> Pinecone.describe_ready svc n = inr false) ->
  Pinecone.describe_ready svc k = inr true ->
  (k < fuel)%nat ->
  exists t',
    Pinecone.wait_ready svc name fuel 0 t = Some (inr tt, t')
    /\ Pinecone.slept t' = Pinecone.slept t + Z.of_nat k.
Proof. intros Hno Hyes Hf. now apply wait_ready_after. Qed.

Lemma wait_ready_sleeps_until_ready_witness :
  (forall n, (n < 2)%nat ->
     Pinecone.describe_ready Pinecone.slow_service n = inr false)
  /\ exists t',
       Pinecone.wait_ready Pinecone.slow_service Pinecone.INDEX_NAME 5 0 []
         = Some (inr tt, t')
       /\ Pinecone.slept t' = Pinecone.slept [] + Z.of_nat 2.
Proof.
  assert (H : forall n, (n < 2)%nat ->
                Pinecone.describe_ready Pinecone.slow_service n = inr false).
  { intros n Hn. destruct n as [|[|n]]; [reflexivity | reflexivity | lia]. }
  split; [exact H|].
  apply (wait_ready_sleeps_until_ready Pinecone.slow_service
           Pinecone.INDEX_NAME 2 5 [] H); [reflexivity | lia].
Defined.

(** X28: when the service never reports the index ready, the waiting loop
    does not return: every bound on the number of polls is reached with the
    loop still running. *)
Theorem wait_ready_never_ready (svc : Pinecone.Service) (name : str)
    (fuel polled : nat) (t : list Pinecone.Call) :
  (forall n, Pinecone.describe_ready svc n = inr false) ->
  Pinecone.wait_ready svc name fuel polled t = None.
Proof.
  intros Hno. revert polled t. induction fuel as [|fuel IH]; intros polled t.
  - reflexivity.
  - cbn [Pinecone.wait_ready]. rewrite Hno. apply IH.
Qed.

Lemma wait_ready_never_ready_witness :
  (forall n, Pinecone.describe_ready Pinecone.stuck_service n = inr false)
  /\ Pinecone.wait_ready Pinecone.stuck_service Pinecone.INDEX_NAME 100 0 []
     = None.
Proof.
  split; [reflexivity|].
  apply (wait_ready_never_ready Pinecone.stuck_service Pinecone.INDEX_NAME
           100 0 []).
  reflexivity.
Defined.

(** X29: when the service lists the index [document-index], start-up from
    an empty configuration succeeds without creating anything and without
    waiting: it lists the indexes, reports that the index exists and opens
    it, and both client slots end up filled, the vector store built on
    that index. *)
Theorem startup_existing_index (svc : Pinecone.Service) (names : list str)
    (fuel : nat) :
  Pinecone.list_indexes_names svc = inr names ->
  In Pinecone.INDEX_NAME names ->
  Pinecone.startup_event svc (Pinecone.mkConfig None None) fuel
  = Some (inr Pinecone.started,
          [Pinecone.List_indexes;
           Pinecone.Print (lit "Index document-index already exists.");
           Pinecone.Open_index Pinecone.INDEX_NAME]).
Proof.
  intros Hnames Hin.
  unfold Pinecone.startup_event, Pinecone.initialize_pinecone.
  cbn [Pinecone.pinecone_client]. rewrite Hnames.
  rewrite bool_decide_eq_true_2 by now apply list_elem_of_In.
  reflexivity.
Qed.

Lemma startup_existing_index_witness :
  In Pinecone.INDEX_NAME [lit "other-index"; lit "document-index"]
  /\ Pinecone.startup_event Pinecone.ready_service
       (Pinecone.mkConfig None None) 0
     = Some (inr Pinecone.started,
             [Pinecone.List_indexes;
              Pinecone.Print (lit "Index document-index already exists.");
              Pinecone.Open_index Pinecone.INDEX_NAME]).
Proof.
  assert (H : In Pinecone.INDEX_NAME [lit "other-index"; lit "document-index"])
    by (right; left; reflexivity).
  split; [exact H|].
  apply (startup_existing_index Pinecone.ready_service
           [lit "other-index"; lit "document-index"] 0 eq_refl H).
Defined.

(** X30: start-up fills a client slot only when it is empty, so running it
    again after it succeeded changes nothing and calls nothing, whatever
    the service would answer the second time. *)
Theorem startup_event_idempotent (svc svc' : Pinecone.Service)
    (cfg cfg' : Pinecone.Config) (fuel fuel' : nat) (t : list Pinecone.Call) :
  Pinecone.startup_event svc cfg fuel = Some (inr cfg', t) ->
  Pinecone.startup_event svc' cfg' fuel' = Some (inr cfg', []).
Proof.
  unfold Pinecone.startup_event. intros H.
  assert (Hfull : exists index store,
            cfg' = Pinecone.mkConfig (Some index) (Some store)).
  { destruct cfg as [[index|] store]; cbn [Pinecone.pinecone_client] in H.
    - cbn [Pinecone.pinecone_vector_store_client Pinecone.pinecone_client] in H.
      destruct store as [store|]; injection H as <- _; eauto.
    - destruct (Pinecone.initialize_pinecone svc Pinecone.INDEX_NAME fuel)
        as [[[e|index] t0]|]; try discriminate.
      cbn [Pinecone.pinecone_vector_store_client Pinecone.pinecone_client] in H.
      destruct store as [store|]; injection H as <- _; eauto. }
  destruct Hfull as (index & store & ->). reflexivity.
Qed.

Lemma startup_event_idempotent_witness :
  Pinecone.startup_event Pinecone.ready_service (Pinecone.mkConfig None None) 0
    = Some (inr Pinecone.started,
            [Pinecone.List_indexes;
             Pinecone.Print (lit "Index document-index already exists.");
             Pinecone.Open_index Pinecone.INDEX_NAME])
  /\ Pinecone.startup_event Pinecone.stuck_service Pinecone.started 0
     = Some (inr Pinecone.started, []).
Proof.
  split; [reflexivity|].
  apply (startup_event_idempotent Pinecone.ready_service Pinecone.stuck_service
           (Pinecone.mkConfig None None) Pinecone.started 0 0
           [Pinecone.List_indexes;
            Pinecone.Print (lit "Index document-index already exists.");
            Pinecone.Open_index Pinecone.INDEX_NAME]).
  reflexivity.
Defined.
